(** * hltv-aio: the resilient fetch pipeline of [Hltv]

    A shallow embedding of the core of [src/hltv-aio/hltv-aio.py]:
    [Hltv.config], [Hltv.get_proxy], [Hltv.switch_proxy],
    [Hltv.cloudflare_check], [Hltv.call_again] and [Hltv.fetch],
    together with the Python text and file primitives they rely on.

    Layout: Python strings and text files, the parsed document, the
    object and its configuration, the effect monad, the proxy pool,
    the challenge detector, the retry chain, and then the theorems. *)

From Stdlib Require Import ZArith Ascii String List Bool Lia Permutation.
From Stdlib Require DecimalString.
From stdpp Require Import base option gmap strings.

Local Open Scope Z_scope.
Local Open Scope string_scope.
Local Open Scope list_scope.

(** ** Python [str] primitives *)

Module PyStr.

(** A character is a code point below 256.  [str.isspace] on a single
    character: TAB, LF, VT, FF, CR, the four separators FS GS RS US,
    SPACE, NEXT LINE (U+0085) and NO-BREAK SPACE (U+00A0). *)
Definition isspace (c : ascii) : bool :=
  let n := nat_of_ascii c in
  ((9 <=? n) && (n <=? 13) || (28 <=? n) && (n <=? 32)
   || (n =? 133) || (n =? 160))%nat.

Definition LF : ascii := ascii_of_nat 10.
Definition CR : ascii := ascii_of_nat 13.

(** The one-character string ["\n"]. *)
Definition nl : string := String LF EmptyString.

Definition is_empty (s : string) : bool :=
  match s with EmptyString => true | String _ _ => false end.

(** [bool(s)] for a [str]. *)
Definition truthy (s : string) : bool := negb (is_empty s).

Fixpoint lstrip (s : string) : string :=
  match s with
  | EmptyString => EmptyString
  | String c s' => if isspace c then lstrip s' else s
  end.

Fixpoint rstrip (s : string) : string :=
  match s with
  | EmptyString => EmptyString
  | String c s' =>
      let r := rstrip s' in
      if isspace c && is_empty r then EmptyString else String c r
  end.

(** [s.strip()] *)
Definition strip (s : string) : string := rstrip (lstrip s).

Fixpoint drop (n : nat) (s : string) : string :=
  match n, s with
  | O, _ => s
  | S _, EmptyString => EmptyString
  | S n', String _ s' => drop n' s'
  end.

(** [''.join(parts)] *)
Fixpoint join (parts : list string) : string :=
  match parts with
  | [] => EmptyString
  | p :: ps => p +:+ join ps
  end.

End PyStr.

(** ** Text files

    A file is the sequence of characters it stores, one byte each.  The
    text layer is the default one of [open]: on reading, universal
    newlines turn
    ["\r\n"] and a lone ["\r"] into ["\n"]; on writing (POSIX host)
    ["\n"] is stored as it is. *)

Module TextFile.
Import PyStr.

Fixpoint universal_newlines (s : string) : string :=
  match s with
  | EmptyString => EmptyString
  | String c s' =>
      if Ascii.eqb c CR then
        match s' with
        | String c' _ =>
            if Ascii.eqb c' LF then universal_newlines s'
            else String LF (universal_newlines s')
        | EmptyString => String LF EmptyString
        end
      else String c (universal_newlines s')
  end.

(** Cut a text into lines, each keeping its terminating ["\n"]; only
    the last line may lack one. *)
Fixpoint splitlines (s : string) : list string :=
  match s with
  | EmptyString => []
  | String c s' =>
      if Ascii.eqb c LF then String c EmptyString :: splitlines s'
      else match splitlines s' with
           | [] => [String c EmptyString]
           | l :: ls => String c l :: ls
           end
  end.

(** [file.readlines()] from position 0. *)
Definition readlines (content : string) : list string :=
  splitlines (universal_newlines content).

(** [file.readline()] from position 0: the first line, or [''] at
    end of file. *)
Definition readline (content : string) : string :=
  match readlines content with
  | [] => EmptyString
  | l :: _ => l
  end.

(** What the file holds after [file.seek(0)], writing [written] and
    closing, in mode ["r+"]: the written characters replace the
    stored ones from position 0; nothing truncates the file, so what
    was stored beyond them stays. *)
Definition overwrite (content written : string) : string :=
  written +:+ drop (String.length written) content.

End TextFile.

(** ** Parsed documents

    [BeautifulSoup(result, "lxml")] is third-party code.  A response
    body is represented by the tree that parser builds from it, so the
    repository's [Hltv.f] is the identity on this representation. *)

(** The classes of string below [NavigableString], [Comment] apart. *)
Inductive string_subclass : Type :=
| CData
| ProcessingInstruction
| Declaration
| Doctype
| Stylesheet
| Script
| TemplateString
| RubyTextString
| RubyParenthesisString.

(** A string of the tree is a [NavigableString] itself, a [Comment],
    or of another subclass. *)
#[warnings="-register-all"] Inductive node : Type :=
| NavigableString (s : string)
| Comment (s : string)
| SubclassString (cls : string_subclass) (s : string)
| Tag (name : string) (attrs : gmap string string) (contents : list node).

(** The [BeautifulSoup] object: the top-level contents of the document. *)
Definition soup : Type := list node.

Module Soup.

Definition subclass_eqb (a b : string_subclass) : bool :=
  match a, b with
  | CData, CData | ProcessingInstruction, ProcessingInstruction
  | Declaration, Declaration | Doctype, Doctype | Stylesheet, Stylesheet
  | Script, Script | TemplateString, TemplateString
  | RubyTextString, RubyTextString
  | RubyParenthesisString, RubyParenthesisString => true
  | _, _ => false
  end.

(** The class of string that the builder puts below an element of this
    name, when it is a special one ([string_containers]). *)
Definition string_container (name : string) : option string_subclass :=
  if String.eqb name "rt" then Some RubyTextString
  else if String.eqb name "rp" then Some RubyParenthesisString
  else if String.eqb name "style" then Some Stylesheet
  else if String.eqb name "script" then Some Script
  else if String.eqb name "template" then Some TemplateString
  else None.

(** Whether a string is of one of the interesting types: of the one
    special class [Some cls], or, for [None], exactly a
    [NavigableString] or a [CData]. *)
Definition interesting (types : option string_subclass) (n : node) : option string :=
  match types, n with
  | None, NavigableString s => Some s
  | None, SubclassString CData s => Some s
  | Some cls, SubclassString cls' s => if subclass_eqb cls cls' then Some s else None
  | _, _ => None
  end.

(** [_all_strings]: the interesting strings at and below [n], in
    document order, concatenated. *)
Fixpoint all_strings (types : option string_subclass) (n : node) : string :=
  match n with
  | Tag _ _ cs =>
      (fix texts (l : list node) : string :=
         match l with
         | [] => EmptyString
         | c :: l' => all_strings types c +:+ texts l'
         end) cs
  | _ => match interesting types n with
         | Some s => s
         | None => EmptyString
         end
  end.

(** [element.get_text()]: on a tag, the strings below it that are of
    the interesting types of that tag, which its name decides: the
    strings of [script], [style] and [template] children, comments,
    doctypes and the like do not count below an ordinary element. *)
Definition get_text (n : node) : string :=
  match n with
  | Tag name _ _ => all_strings (string_container name) n
  | _ => all_strings None n
  end.

Definition has_id (v : string) (attrs : gmap string string) : bool :=
  match attrs !! "id" with
  | Some v' => String.eqb v' v
  | None => false
  end.

(** First element, in document order, at or below [n] whose [id]
    attribute is [v]. *)
Fixpoint find_in (v : string) (n : node) : option node :=
  match n with
  | Tag _ attrs cs =>
      if has_id v attrs then Some n
      else (fix first (l : list node) : option node :=
              match l with
              | [] => None
              | c :: l' =>
                  match find_in v c with
                  | Some r => Some r
                  | None => first l'
                  end
              end) cs
  | _ => None
  end.

(** [page.find(id=v)] *)
Fixpoint find (v : string) (page : soup) : option node :=
  match page with
  | [] => None
  | c :: l' =>
      match find_in v c with
      | Some r => Some r
      | None => find v l'
      end
  end.

(** All elements of the document, in document order. *)
Fixpoint elements_in (n : node) : list node :=
  match n with
  | Tag _ _ cs => n :: flat_map elements_in cs
  | _ => []
  end.

Definition elements (page : soup) : list node := flat_map elements_in page.

(** The text of the whole document. *)
Definition text (page : soup) : string := PyStr.join (map (all_strings None) page).

End Soup.

(** ** The [Hltv] object *)

Record Hltv : Type := mkHltv {
  MAX_DELAY : Z;
  timeout : Z;
  USE_PROXY : bool;
  PROXY_PATH : option string;
  PROXY_LIST : option (list string);
  DEBUG : bool;
  (** set by [config] only; [None] while the attribute does not exist *)
  PROXY_FILE_PATH : option string
}.

(** [Hltv(max_delay, timeout, use_proxy, proxy_path, proxy_list, debug)] *)
Definition init (max_delay timeout : Z) (use_proxy : bool)
    (proxy_path : option string) (proxy_list : option (list string))
    (debug : bool) : Hltv :=
  mkHltv max_delay timeout use_proxy proxy_path proxy_list debug None.

(** [Hltv()] with the defaults of [__init__]. *)
Definition init_default : Hltv := init 15 5 false None None false.

(** An optional argument that passes [if arg:] gives its value: [None],
    [0], [False], [''] and [[]] do not pass. *)
Module Truthy.
Definition int (x : option Z) : option Z :=
  match x with Some z => if Z.eqb z 0 then None else Some z | None => None end.
Definition boolean (x : option bool) : option bool :=
  match x with Some true => Some true | _ => None end.
Definition str (x : option string) : option string :=
  match x with Some s => if PyStr.truthy s then Some s else None | None => None end.
Definition list {A} (x : option (list A)) : option (list A) :=
  match x with Some (a :: l) => Some (a :: l) | _ => None end.
End Truthy.

Definition set_MAX_DELAY (v : Z) (h : Hltv) : Hltv :=
  mkHltv v (timeout h) (USE_PROXY h) (PROXY_PATH h) (PROXY_LIST h) (DEBUG h) (PROXY_FILE_PATH h).
Definition set_timeout (v : Z) (h : Hltv) : Hltv :=
  mkHltv (MAX_DELAY h) v (USE_PROXY h) (PROXY_PATH h) (PROXY_LIST h) (DEBUG h) (PROXY_FILE_PATH h).
Definition set_USE_PROXY (v : bool) (h : Hltv) : Hltv :=
  mkHltv (MAX_DELAY h) (timeout h) v (PROXY_PATH h) (PROXY_LIST h) (DEBUG h) (PROXY_FILE_PATH h).
Definition set_PROXY_LIST (v : option (list string)) (h : Hltv) : Hltv :=
  mkHltv (MAX_DELAY h) (timeout h) (USE_PROXY h) (PROXY_PATH h) v (DEBUG h) (PROXY_FILE_PATH h).
Definition set_DEBUG (v : bool) (h : Hltv) : Hltv :=
  mkHltv (MAX_DELAY h) (timeout h) (USE_PROXY h) (PROXY_PATH h) (PROXY_LIST h) v (PROXY_FILE_PATH h).
Definition set_PROXY_FILE_PATH (v : option string) (h : Hltv) : Hltv :=
  mkHltv (MAX_DELAY h) (timeout h) (USE_PROXY h) (PROXY_PATH h) (PROXY_LIST h) (DEBUG h) v.

(** [Hltv.config]: one guarded assignment per argument, in the order
    of the source. *)
Definition config (max_delay timeout : option Z) (use_proxy : option bool)
    (proxy_file_path : option string) (proxy_list : option (list string))
    (debug : option bool) (self : Hltv) : Hltv :=
  let self := match Truthy.int max_delay with
              | Some v => set_MAX_DELAY v self | None => self end in
  let self := match Truthy.int timeout with
              | Some v => set_timeout v self | None => self end in
  let self := match Truthy.boolean use_proxy with
              | Some v => set_USE_PROXY v self | None => self end in
  let self := match Truthy.str proxy_file_path with
              | Some v => set_PROXY_FILE_PATH (Some v) self | None => self end in
  let self := match Truthy.list proxy_list with
              | Some v => set_PROXY_LIST (Some v) self | None => self end in
  match Truthy.boolean debug with
  | Some v => set_DEBUG v self | None => self end.

(** ** Effects

    The methods read and assign the attributes of [self], read and
    rewrite the proxy file, sleep and issue requests, and may raise.
    A computation takes the world and gives an outcome and the world
    it leaves. *)

Inductive exception : Type :=
| ClientProxyConnectionError
| ClientResponseError
| ClientOSError
| ServerDisconnectedError
| TimeoutError
| ClientHttpProxyError
| IndexError
| TypeError
| FileNotFoundError
| OtherError.

(** What a fetch does that the outside can watch. *)
Inductive event : Type :=
| Sleep (delay : Z)
| Get (url : string) (proxy : option string).

Record world : Type := mkWorld {
  self : Hltv;
  disk : gmap string string;
  trace : list event
}.

(** [Pending]: the coroutine awaits an answer that the scripted
    environment does not contain. *)
Inductive outcome (A : Type) : Type :=
| Return (a : A)
| Raise (e : exception)
| Pending.
Arguments Return {A} a.
Arguments Raise {A} e.
Arguments Pending {A}.

Definition M (A : Type) : Type := world -> outcome A * world.

Definition ret {A} (a : A) : M A := fun w => (Return a, w).

Definition bind {A B} (m : M A) (k : A -> M B) : M B :=
  fun w =>
    match m w with
    | (Return a, w') => k a w'
    | (Raise e, w') => (Raise e, w')
    | (Pending, w') => (Pending, w')
    end.

#[global] Instance M_ret : MRet M := @ret.
#[global] Instance M_bind : MBind M := fun A B k m => bind m k.

Definition raise {A} (e : exception) : M A := fun w => (Raise e, w).
Definition pending {A} : M A := fun w => (Pending, w).

Definition get_self : M Hltv := fun w => (Return (self w), w).
Definition put_self (h : Hltv) : M unit :=
  fun w => (Return tt, mkWorld h (disk w) (trace w)).

(** [open(path, "r")] or [open(path, "r+")] and reading the whole file. *)
Definition read_file (path : string) : M string :=
  fun w =>
    match disk w !! path with
    | Some content => (Return content, w)
    | None => (Raise FileNotFoundError, w)
    end.

Definition store_file (path content : string) : M unit :=
  fun w => (Return tt, mkWorld (self w) (<[path := content]> (disk w)) (trace w)).

Definition emit (e : event) : M unit :=
  fun w => (Return tt, mkWorld (self w) (disk w) (trace w ++ [e])).

(** ** The proxy pool *)

(** [Hltv.get_proxy].  The result is a Python value: a [str], or
    [None] when the file branch falls off the end of the function. *)
Definition get_proxy : M (option string) :=
  h ← get_self;
  match Truthy.str (PROXY_PATH h) with
  | Some path =>
      content ← read_file path;
      let proxy := PyStr.strip (TextFile.readline content) in
      if PyStr.truthy proxy then mret (Some proxy) else mret None
  | None =>
      match PROXY_LIST h with
      | None => raise TypeError
      | Some [] => raise IndexError
      | Some (p :: _) => mret (Some p)
      end
  end.

(** [line.strip() != proxy] *)
Definition differs (line : string) (proxy : option string) : bool :=
  match proxy with
  | Some p => negb (String.eqb (PyStr.strip line) p)
  | None => true
  end.

(** [Hltv.switch_proxy].  In the file branch the kept lines are written
    first; [proxy + "\n"] raises [TypeError] when [proxy] is [None],
    and leaving the [with] block stores what was written so far. *)
Definition switch_proxy (proxy : option string) : M unit :=
  h ← get_self;
  match Truthy.str (PROXY_PATH h) with
  | Some path =>
      content ← read_file path;
      let proxies := TextFile.readlines content in
      let kept := PyStr.join (List.filter (fun line => differs line proxy) proxies) in
      match proxy with
      | Some p => store_file path (TextFile.overwrite content (kept +:+ p +:+ PyStr.nl))
      | None => store_file path (TextFile.overwrite content kept);; raise TypeError
      end
  | None =>
      match PROXY_LIST h with
      | None => raise TypeError
      | Some [] => raise IndexError
      | Some (p :: rest) => put_self (set_PROXY_LIST (Some (rest ++ [p])) h)
      end
  end.

(** ** The challenge detector *)

Definition challenge_phrase : string := "Enable JavaScript and cookies to continue".

(** [Hltv.f] *)
Definition f (result : soup) : soup := result.

(** [Hltv.cloudflare_check] *)
Definition cloudflare_check (result : soup) : bool :=
  let page := f result in
  match Soup.find "challenge-error-title" page with
  | Some challenge_page => String.eqb challenge_phrase (Soup.get_text challenge_page)
  | None => false
  end.

(** ** The retry chain *)

(** What one [session.get] meets: an exception on the way, or a
    response with a status whose text arrives or breaks off. *)
Inductive payload : Type :=
| Text (result : soup)
| Broken (e : exception).

Inductive transport : Type :=
| Raises (e : exception)
| Responds (status : Z) (body : payload).

(** The [except] clause of [fetch]. *)
Definition caught (e : exception) : bool :=
  match e with
  | ClientProxyConnectionError | ClientResponseError | ClientOSError
  | ServerDisconnectedError | TimeoutError | ClientHttpProxyError => true
  | _ => false
  end.

(** The delay step of [call_again]. *)
Definition next_delay (delay max_delay : Z) : Z :=
  if (delay <? max_delay)%Z then (delay + 1)%Z else delay.

(** [Hltv.call_again], with the [fetch] it re-enters as a parameter.
    The f-string of the debug message calls [get_proxy] whatever the
    log level. *)
Definition call_again (fetch : string -> Z -> M soup)
    (url : string) (proxy : option string) (delay : Z) : M soup :=
  h ← get_self;
  if USE_PROXY h then
    switch_proxy proxy;;
    get_proxy;;
    fetch url 0
  else
    fetch url (next_delay delay (MAX_DELAY h)).

(** [Hltv.fetch].  The environment is scripted: the n-th request of
    the chain meets the n-th element of [rs]. *)
Fixpoint fetch (rs : list transport) (url : string) (delay : Z) : M soup :=
  h ← get_self;
  proxy ← (if USE_PROXY h then get_proxy else mret (Some EmptyString));
  emit (Sleep delay);;
  emit (Get url proxy);;
  match rs with
  | [] => pending
  | r :: rs' =>
      match r with
      | Raises e =>
          if caught e then call_again (fetch rs') url proxy delay else raise e
      | Responds status body =>
          if (status =? 403)%Z || (status =? 404)%Z then
            call_again (fetch rs') url proxy delay
          else
            match body with
            | Broken e =>
                if caught e then call_again (fetch rs') url proxy delay else raise e
            | Text result =>
                if cloudflare_check result then
                  call_again (fetch rs') url proxy delay
                else mret (f result)
            end
      end
  end.

(** ** Induction on documents *)

Section node_induction.
Variable P : node -> Prop.
Hypothesis P_string : forall s, P (NavigableString s).
Hypothesis P_comment : forall s, P (Comment s).
Hypothesis P_subclass : forall cls s, P (SubclassString cls s).
Hypothesis P_tag : forall name attrs cs, Forall P cs -> P (Tag name attrs cs).

Fixpoint node_induction (n : node) : P n :=
  match n with
  | NavigableString s => P_string s
  | Comment s => P_comment s
  | SubclassString cls s => P_subclass cls s
  | Tag name attrs cs =>
      P_tag name attrs cs
        ((fix all (l : list node) : Forall P l :=
            match l with
            | [] => @List.Forall_nil node P
            | c :: l' => @List.Forall_cons node P c l' (node_induction c) (all l')
            end) cs)
  end.
End node_induction.

(** ** Vocabulary of the statements *)

(** The element carries the id [v]. *)
Definition carries_id (v : string) (n : node) : bool :=
  match n with
  | Tag _ attrs _ => Soup.has_id v attrs
  | _ => false
  end.

(** [needle] occurs in [s] as a substring. *)
Fixpoint occurs_in (needle s : string) : bool :=
  String.prefix needle s ||
  match s with
  | EmptyString => false
  | String _ s' => occurs_in needle s'
  end.

(** The attempt ends in [call_again]: a caught exception, a 403 or a
    404, or a body on which the detector fires. *)
Definition retried (r : transport) : bool :=
  match r with
  | Raises e => caught e
  | Responds status body =>
      (status =? 403)%Z || (status =? 404)%Z ||
      match body with
      | Broken e => caught e
      | Text result => cloudflare_check result
      end
  end.

(** The world after [asyncio.sleep(delay)] and the request through [proxy]. *)
Definition attempted (url : string) (proxy : option string) (delay : Z) (w : world) : world :=
  mkWorld (self w) (disk w) (trace w ++ [Sleep delay; Get url proxy]).

Definition with_self (h : Hltv) (w : world) : world :=
  mkWorld h (disk w) (trace w).

Definition with_file (path content : string) (w : world) : world :=
  mkWorld (self w) (<[path := content]> (disk w)) (trace w).

(** The delays slept, in order. *)
Definition delays (tr : list event) : list Z :=
  flat_map (fun e => match e with Sleep d => [d] | Get _ _ => [] end) tr.

(** The proxies of the requests issued, in order. *)
Definition proxies_used (tr : list event) : list (option string) :=
  flat_map (fun e => match e with Sleep _ => [] | Get _ p => [p] end) tr.

(** The pool lives in [PROXY_LIST]. *)
Definition in_memory (w : world) : Prop :=
  Truthy.str (PROXY_PATH (self w)) = None.

(** The pool lives in the file [path]. *)
Definition file_backed (path : string) (w : world) : Prop :=
  Truthy.str (PROXY_PATH (self w)) = Some path.

(** A file-backed pool in its regular form: one endpoint per line,
    each line ended by a newline; an endpoint is not empty and holds
    no white space. *)
Fixpoint has_space (s : string) : bool :=
  match s with
  | EmptyString => false
  | String c s' => PyStr.isspace c || has_space s'
  end.

Definition endpoint (p : string) : Prop :=
  p <> EmptyString /\ has_space p = false.

Definition pool_file (l : list string) : string :=
  PyStr.join (map (fun p => p +:+ PyStr.nl) l).

(** The rotation of the specification, in its words: remove the first
    occurrence of the endpoint and append the endpoint at the tail. *)
Module Spec.
Fixpoint remove_first (e : string) (l : list string) : list string :=
  match l with
  | [] => []
  | x :: l' => if String.eqb x e then l' else x :: remove_first e l'
  end.

Definition rotate (e : string) (l : list string) : list string :=
  remove_first e l ++ [e].

(** The backoff step of the specification, in its words. *)
Definition nextDelay (current max : Z) : Z :=
  if (current <? max)%Z then (current + 1)%Z else max.
End Spec.

(** [n] times: take the head of the pool and rotate on it. *)
Fixpoint rotate_head (n : nat) : M unit :=
  match n with
  | O => mret tt
  | S n' => proxy ← get_proxy; switch_proxy proxy;; rotate_head n'
  end.

(** A pool that cannot fail: no proxy at all, or an in-memory pool with
    at least one entry. *)
Definition unfailing (w : world) : Prop :=
  USE_PROXY (self w) = false \/
  (USE_PROXY (self w) = true /\ in_memory w /\
   exists p rest, PROXY_LIST (self w) = Some (p :: rest)).

(** The text [switch_proxy] writes for the endpoint [p]: the lines that
    differ from it, then the endpoint and a newline. *)
Definition rewritten (content p : string) : string :=
  PyStr.join (List.filter (fun line => differs line (Some p)) (TextFile.readlines content))
  +:+ p +:+ PyStr.nl.

(** The proxy a [fetch] starts with. *)
Definition select_proxy : M (option string) :=
  fun w => if USE_PROXY (self w) then get_proxy w else (Return (Some EmptyString), w).

(** How an attempt that is not retried ends. *)
Definition settle (r : transport) : outcome soup :=
  match r with
  | Responds _ (Text result) => Return result
  | Raises e | Responds _ (Broken e) => Raise e
  end.


(** Sample documents: a page of the site, the challenge page, a page
    whose marked element holds a text that only resembles the phrase,
    a page that holds the phrase in an element without the id, and a
    challenge page whose marked element also holds a script and a
    comment. *)
Definition plain_page : soup :=
  [Tag "html" ∅ [Tag "body" ∅ [Tag "div" {[ "class" := "ranking" ]} [NavigableString "Top teams"]]]].

Definition challenge_page : soup :=
  [Tag "html" ∅
     [Tag "body" ∅
        [Tag "h1" {[ "id" := "challenge-error-title" ]}
           [NavigableString "Enable JavaScript and cookies to continue"]]]].

Definition lookalike_page : soup :=
  [Tag "h1" {[ "id" := "challenge-error-title" ]}
     [NavigableString "Enable JavaScript and cookies to continue."]].

Definition unmarked_phrase_page : soup :=
  [Tag "p" ∅ [NavigableString "Enable JavaScript and cookies to continue"]].

Definition scripted_challenge_page : soup :=
  [Tag "html" ∅
     [Tag "body" ∅
        [Tag "div" {[ "id" := "challenge-error-title" ]}
           [NavigableString "Enable JavaScript and cookies to continue";
            Comment "cf";
            Tag "script" ∅ [SubclassString Script "window._cf_chl_opt = {};"]]]]].

(** A fresh object in a world without files and without history. *)
Definition fresh (h : Hltv) : world := mkWorld h ∅ [].

(** ** Vocabulary of the properties beyond the claims *)

(** Every attribute but [PROXY_LIST] is the same. *)
Definition same_settings (h h' : Hltv) : Prop :=
  MAX_DELAY h' = MAX_DELAY h /\ timeout h' = timeout h /\
  USE_PROXY h' = USE_PROXY h /\ PROXY_PATH h' = PROXY_PATH h /\
  DEBUG h' = DEBUG h /\ PROXY_FILE_PATH h' = PROXY_FILE_PATH h.

(** Every file but the pool file holds what it held. *)
Definition other_files_kept (w w' : world) : Prop :=
  forall other : string,
    Truthy.str (PROXY_PATH (self w)) <> Some other ->
    disk w' !! other = disk w !! other.

(** The events of a run of attempts, each a sleep and a request. *)
Definition attempts_of (url : string) (l : list (Z * option string)) : list event :=
  flat_map (fun a => [Sleep (fst a); Get url (snd a)]) l.

(** What the pool operations and the retry chain leave alone. *)
Definition framed (url : string) (w w' : world) : Prop :=
  same_settings (self w) (self w') /\
  other_files_kept w w' /\
  (in_memory w -> disk w' = disk w) /\
  (forall path, file_backed path w -> PROXY_LIST (self w') = PROXY_LIST (self w)) /\
  (forall l, in_memory w -> PROXY_LIST (self w) = Some l ->
             exists l', PROXY_LIST (self w') = Some l' /\ Permutation l l') /\
  exists l, trace w' = trace w ++ attempts_of url l.

(** The outcome the environment alone decides: that of the first
    scripted answer that is not retried. *)
Fixpoint verdict (rs : list transport) : outcome soup :=
  match rs with
  | [] => Pending
  | r :: rs' => if retried r then verdict rs' else settle r
  end.

(** The number of requests a chain sends on a script: one for each
    leading retried answer and one more. *)
Fixpoint tries (rs : list transport) : nat :=
  match rs with
  | [] => 1
  | r :: rs' => if retried r then S (tries rs') else 1
  end.

(** The delays of [n] successive attempts without a proxy. *)
Fixpoint backoff (delay max_delay : Z) (n : nat) : list Z :=
  match n with
  | O => []
  | S n' => delay :: backoff (next_delay delay max_delay) max_delay n'
  end.

(** The pool holds [l]: in [PROXY_LIST], or in a regular pool file of
    distinct endpoints. *)
Definition pool_holds (l : list string) (w : world) : Prop :=
  (in_memory w /\ PROXY_LIST (self w) = Some l) \/
  (exists path, file_backed path w /\ disk w !! path = Some (pool_file l) /\
                Forall endpoint l /\ NoDup l).

(** The attempts of a chain that meets one failure per entry of [l]:
    the first after [delay], the others at once. *)
Definition through (delay : Z) (l : list string) : list (Z * option string) :=
  match l with
  | [] => []
  | p :: l' => (delay, Some p) :: map (fun q => (0, Some q)) l'
  end.

(** ** Dates of the event pages *)

Module Dates.

(** What [normalize_date] can raise: the month is not a key of the
    table, or [parts] is too short. *)
Inductive error : Type :=
| KeyError (key : string)
| IndexError.

Definition month_abbreviations : gmap string string :=
  list_to_map
    [("Jan", "1"); ("Feb", "2"); ("Mar", "3"); ("Apr", "4");
     ("May", "5"); ("Jun", "6"); ("Jul", "7"); ("Aug", "8");
     ("Sep", "9"); ("Oct", "10"); ("Nov", "11"); ("Dec", "12")].

Fixpoint take (n : nat) (s : string) : string :=
  match n, s with
  | O, _ => EmptyString
  | S _, EmptyString => EmptyString
  | S n', String c s' => String c (take n' s')
  end.

(** [s[:-2]] *)
Definition without_last_two (s : string) : string :=
  take (String.length s - 2) s.

(** [Hltv.normalize_date]: the month is looked up before the day is
    read. *)
Definition normalize_date (parts : list string) : error + string :=
  match parts with
  | [] => inl IndexError
  | p0 :: rest =>
      match month_abbreviations !! p0 with
      | None => inl (KeyError p0)
      | Some month =>
          match rest with
          | [] => inl IndexError
          | p1 :: _ =>
              let day := without_last_two p1 in
              inr (day +:+ "-" +:+ month)
          end
      end
  end.

(** The number [n] in decimal, as [str(n)] gives it. *)
Definition decimal (n : nat) : string :=
  DecimalString.NilEmpty.string_of_uint (Nat.to_uint n).

(** The keys of the table, in the order of the year. *)
Definition months : list string :=
  ["Jan"; "Feb"; "Mar"; "Apr"; "May"; "Jun";
   "Jul"; "Aug"; "Sep"; "Oct"; "Nov"; "Dec"].

(** The string holds no hyphen. *)
Fixpoint hyphen_free (s : string) : bool :=
  match s with
  | EmptyString => true
  | String c s' => negb (Ascii.eqb c "-") && hyphen_free s'
  end.

End Dates.

(** ** Match lists of the match pages

    The queries on the document are bs4's; the functions are taken
    from their results on: the texts of the team elements and the
    attributes of the match containers, in document order. *)

Module Matches.

(** [seq[::2]] *)
Fixpoint every_second {A : Type} (l : list A) : list A :=
  match l with
  | [] => []
  | x :: l' => x :: match l' with
                    | [] => []
                    | _ :: l'' => every_second l''
                    end
  end.

(** [[(team1, team2) for team1, team2 in tuple(zip(teams, teams[1:]))[::2]]] *)
Definition pair_teams (teams : list string) : list (string * string) :=
  every_second (combine teams (tl teams)).

(** [s.split(sep)] for a separator of one character. *)
Fixpoint split (sep : ascii) (s : string) : list string :=
  match s with
  | EmptyString => [EmptyString]
  | String c s' =>
      if Ascii.eqb c sep then EmptyString :: split sep s'
      else match split sep s' with
           | [] => [String c EmptyString]
           | h :: t => String c h :: t
           end
  end.

(** [str(x)] for [x] a [str] or [None]. *)
Definition str (x : option string) : string :=
  match x with Some s => s | None => "None" end.

Record live_match : Type := mkLiveMatch {
  teams : string * string;
  maps : list string;
  stars : option string
}.

(** [zip(matches, maps, stars)] with the record built from each triple. *)
Fixpoint zip_records (ms : list (string * string)) (mps : list (list string))
    (sts : list (option string)) : list live_match :=
  match ms, mps, sts with
  | m :: ms', mp :: mps', st :: sts' => mkLiveMatch m mp st :: zip_records ms' mps' sts'
  | _, _, _ => []
  end.

(** [Hltv.get_live_matches] after its [fetch]: [live_matches] is what
    [r.find] gave, [None] or the container with the texts of its team
    elements and the attributes of its match containers. *)
Definition get_live_matches
    (live_matches : option (list string * list (gmap string string)))
    : list live_match :=
  match live_matches with
  | None => []
  | Some (team_texts, liveMatchContainer) =>
      let matches := pair_teams team_texts in
      let maps := map (fun line => split "," (str (line !! "data-maps"))) liveMatchContainer in
      let stars := map (fun line => line !! "stars") liveMatchContainer in
      zip_records matches maps stars
  end.

End Matches.
(** * Theorems *)

(** ** Backoff *)

(** C3 (as amended): below the ceiling the delay grows by one second;
    at or above it the delay is kept as it is, which is the ceiling
    itself when the delay equals it.  The step never decreases the
    delay, is monotone, stays at or below the ceiling when it starts
    there, and is idempotent once the ceiling is reached. *)
Theorem next_delay_policy (d max : Z) :
  (d < max -> next_delay d max = d + 1) /\
  (max <= d -> next_delay d max = d) /\
  next_delay max max = max /\
  d <= next_delay d max /\
  (d <= max -> next_delay d max <= max) /\
  (forall d', d <= d' -> next_delay d max <= next_delay d' max) /\
  (max <= d -> next_delay (next_delay d max) max = next_delay d max).
Proof.
  repeat split; intros; unfold next_delay in *;
    repeat match goal with
           | |- context [(?a <? ?b)%Z] => destruct (Z.ltb_spec a b)
           end; lia.
Qed.

(** Below, above and at a ceiling of 15 seconds. *)
Lemma next_delay_policy_witness :
  next_delay 3 15 = 4 /\ next_delay 20 15 = 20 /\ next_delay 15 15 <= 15.
Proof.
  split; [apply (proj1 (next_delay_policy 3 15)); lia|].
  split; [apply (proj1 (proj2 (next_delay_policy 20 15))); lia|].
  apply (proj1 (proj2 (proj2 (proj2 (proj2 (next_delay_policy 15 15)))))); lia.
Defined.

(** C3 (as stated) fails: a delay above the ceiling is kept, not cut
    down to the ceiling. *)
Lemma next_delay_not_clamped :
  ~ (forall d max : Z,
       (d < max -> next_delay d max = d + 1) /\
       (d >= max -> next_delay d max = max)).
Proof.
  intros H. destruct (H 20 15) as [_ H2].
  specialize (H2 ltac:(lia)). vm_compute in H2. discriminate.
Qed.

(** The step of the source agrees with the step of the specification
    on every delay that does not exceed the ceiling. *)
Lemma next_delay_refines_up_to_ceiling (d max : Z) :
  d <= max -> next_delay d max = Spec.nextDelay d max.
Proof.
  intros H. unfold next_delay, Spec.nextDelay.
  destruct (Z.ltb_spec d max); lia.
Qed.

(** ** The text primitives on small inputs *)

Example strip_ex : PyStr.strip "  10.0.0.1:80
" = "10.0.0.1:80".
Proof. reflexivity. Qed.

Example readlines_ex :
  TextFile.readlines ("a" +:+ PyStr.nl +:+ PyStr.nl +:+ "b")
  = ["a" +:+ PyStr.nl; PyStr.nl; "b"].
Proof. reflexivity. Qed.

Example readlines_crlf_ex :
  TextFile.readlines (String "a" (String PyStr.CR (String PyStr.LF "b")))
  = ["a" +:+ PyStr.nl; "b"].
Proof. reflexivity. Qed.

Example overwrite_ex : TextFile.overwrite "abcdef" "xy" = "xycdef".
Proof. reflexivity. Qed.

Example strip_no_break_space_ex :
  PyStr.strip (String (ascii_of_nat 160) ("P1" +:+ String (ascii_of_nat 133) EmptyString))
  = "P1".
Proof. reflexivity. Qed.

(** ** Reconfiguration *)

(** What [config] does, attribute by attribute. *)
Lemma config_fields max_delay tmo use_proxy proxy_file_path proxy_list debug (h : Hltv) :
  let h' := config max_delay tmo use_proxy proxy_file_path proxy_list debug h in
  MAX_DELAY h' = default (MAX_DELAY h) (Truthy.int max_delay) /\
  timeout h' = default (timeout h) (Truthy.int tmo) /\
  USE_PROXY h' = default (USE_PROXY h) (Truthy.boolean use_proxy) /\
  PROXY_LIST h' = match Truthy.list proxy_list with
                  | Some l => Some l | None => PROXY_LIST h end /\
  DEBUG h' = default (DEBUG h) (Truthy.boolean debug) /\
  PROXY_FILE_PATH h' = match Truthy.str proxy_file_path with
                       | Some p => Some p | None => PROXY_FILE_PATH h end /\
  PROXY_PATH h' = PROXY_PATH h.
Proof.
  unfold config.
  destruct (Truthy.int max_delay), (Truthy.int tmo), (Truthy.boolean use_proxy),
    (Truthy.str proxy_file_path), (Truthy.list proxy_list), (Truthy.boolean debug);
    cbn; repeat split; reflexivity.
Qed.

(** [config(debug=True)] alone changes [DEBUG] and nothing else. *)
Lemma config_debug_only (h : Hltv) :
  config None None None None None (Some true) h = set_DEBUG true h.
Proof. reflexivity. Qed.

(** C9: a file path handed to [config] is stored in the attribute
    [PROXY_FILE_PATH]; the attribute [PROXY_PATH], which [get_proxy]
    and [switch_proxy] read, keeps its prior value.  On an object
    built with [proxy_path="old.txt"], [config(proxy_file_path="new.txt")]
    leaves the pool in [old.txt]: the next [get_proxy] still answers
    from that file. *)
Theorem config_keeps_old_proxy_path :
  let h := init 15 5 true (Some "old.txt") None false in
  let h' := config None None None (Some "new.txt") None None h in
  let files : gmap string string :=
    {[ "old.txt" := pool_file ["10.0.0.1:80"]; "new.txt" := pool_file ["10.0.0.2:80"] ]} in
  PROXY_PATH h' = Some "old.txt" /\
  PROXY_FILE_PATH h' = Some "new.txt" /\
  fst (get_proxy (mkWorld h' files [])) = Return (Some "10.0.0.1:80") /\
  (forall max_delay tmo use_proxy proxy_file_path proxy_list debug (g : Hltv),
     PROXY_PATH (config max_delay tmo use_proxy proxy_file_path proxy_list debug g)
     = PROXY_PATH g).
Proof.
  repeat split; try (vm_compute; reflexivity).
  intros. apply config_fields.
Qed.

(** ** Rotation of the in-memory pool *)

Lemma switch_proxy_in_memory (w : world) (p : string) (rest : list string)
    (e : option string) :
  in_memory w ->
  PROXY_LIST (self w) = Some (p :: rest) ->
  switch_proxy e w
  = (Return tt, with_self (set_PROXY_LIST (Some (rest ++ [p])) (self w)) w).
Proof.
  intros Hm Hl. unfold in_memory in Hm.
  unfold switch_proxy, mbind, M_bind, bind, get_self. cbn.
  rewrite Hm, Hl. reflexivity.
Qed.

Lemma get_proxy_in_memory (w : world) (p : string) (rest : list string) :
  in_memory w ->
  PROXY_LIST (self w) = Some (p :: rest) ->
  get_proxy w = (Return (Some p), w).
Proof.
  intros Hm Hl. unfold in_memory in Hm.
  unfold get_proxy, mbind, M_bind, bind, get_self. cbn.
  rewrite Hm, Hl. reflexivity.
Qed.

(** C10: on an in-memory pool with at least one entry, [switch_proxy]
    moves the head of the list to its tail, whatever endpoint it is
    given: the head itself, another entry, a stranger or [None]. *)
Theorem switch_proxy_ignores_its_argument (w : world) (l : list string)
    (e : option string) :
  in_memory w ->
  PROXY_LIST (self w) = Some l ->
  (1 <= length l)%nat ->
  exists p rest,
    l = p :: rest /\
    switch_proxy e w
    = (Return tt, with_self (set_PROXY_LIST (Some (rest ++ [p])) (self w)) w).
Proof.
  intros Hm Hl Hn. destruct l as [|p rest]; [cbn in Hn; lia|].
  exists p, rest. split; [reflexivity|].
  by apply switch_proxy_in_memory.
Qed.

(** Rotation of [P1; P2; P3] on an endpoint that is not in the pool. *)
Lemma switch_proxy_ignores_its_argument_witness :
  exists p rest,
    ["P1"; "P2"; "P3"] = p :: rest /\
    switch_proxy (Some "nowhere")
      (mkWorld (init 15 5 true None (Some ["P1"; "P2"; "P3"]) false) ∅ [])
    = (Return tt,
       with_self (set_PROXY_LIST (Some (rest ++ [p]))
                    (init 15 5 true None (Some ["P1"; "P2"; "P3"]) false))
         (mkWorld (init 15 5 true None (Some ["P1"; "P2"; "P3"]) false) ∅ [])).
Proof.
  apply (switch_proxy_ignores_its_argument
           (mkWorld (init 15 5 true None (Some ["P1"; "P2"; "P3"]) false) ∅ [])
           ["P1"; "P2"; "P3"] (Some "nowhere")).
  - reflexivity.
  - reflexivity.
  - cbn. lia.
Defined.

(** ** The challenge detector *)

Lemma find_app {A} (p : A -> bool) (l1 l2 : list A) :
  List.find p (l1 ++ l2)
  = match List.find p l1 with Some x => Some x | None => List.find p l2 end.
Proof.
  induction l1 as [|a l1 IH]; cbn; [reflexivity|].
  destruct (p a); [reflexivity|exact IH].
Qed.

(** [find_in] walks the elements in document order and stops at the
    first that carries the id. *)
Lemma find_in_first (v : string) (n : node) :
  Soup.find_in v n = List.find (carries_id v) (Soup.elements_in n).
Proof.
  induction n as [s|s|cls s|name attrs cs IH] using node_induction; cbn; try reflexivity.
  destruct (Soup.has_id v attrs); [reflexivity|].
  induction IH as [|c l Hc _ IHl]; cbn; [reflexivity|].
  rewrite find_app, <- Hc. destruct (Soup.find_in v c); [reflexivity|exact IHl].
Qed.

Lemma find_first (v : string) (page : soup) :
  Soup.find v page = List.find (carries_id v) (Soup.elements page).
Proof.
  induction page as [|c l IH]; cbn; [reflexivity|].
  unfold Soup.elements in *. cbn.
  rewrite find_app, <- find_in_first, IH. reflexivity.
Qed.

(** [List.find] answers [n] exactly when [n] is the first entry that
    passes the test. *)
Lemma find_some_first {A} (p : A -> bool) (l : list A) (x : A) :
  List.find p l = Some x <->
  exists pre post, l = pre ++ x :: post /\ Forall (fun y => p y = false) pre /\ p x = true.
Proof.
  induction l as [|a l IH]; cbn.
  - split; [discriminate|]. intros (pre & post & H & _). by destruct pre.
  - destruct (p a) eqn:Ha.
    + split.
      * intros [= <-]. exists [], l. by repeat split.
      * intros (pre & post & H & Hpre & Hx). destruct pre as [|b pre]; cbn in H.
        -- by injection H as -> _.
        -- injection H as <- _. apply Forall_cons in Hpre as [Hb _]. congruence.
    + rewrite IH. split.
      * intros (pre & post & -> & Hpre & Hx). exists (a :: pre), post.
        repeat split; [by constructor|exact Hx].
      * intros (pre & post & H & Hpre & Hx). destruct pre as [|b pre]; cbn in H.
        -- injection H as -> _. congruence.
        -- injection H as <- ->. apply Forall_cons in Hpre as [_ Hpre]. eauto.
Qed.

(** The text of an element, child by child. *)
Lemma get_text_tag (name : string) (attrs : gmap string string) (cs : list node) :
  Soup.get_text (Tag name attrs cs)
  = PyStr.join (map (Soup.all_strings (Soup.string_container name)) cs).
Proof.
  unfold Soup.get_text. cbn [Soup.all_strings].
  induction cs as [|c cs IH]; [reflexivity|].
  cbn [map PyStr.join]. by rewrite IH.
Qed.

(** C8 (as amended): the detector answers true exactly when the first
    element of the document, in document order, that carries the id
    [challenge-error-title] exists and its text equals the challenge
    phrase; it answers false on the empty document, false when that
    element holds a text that merely resembles the phrase, and true
    on the challenge page, also when the marked element holds a script
    and a comment beside the phrase: the text of an element is made of
    the strings below it that are of its interesting types, so below
    an ordinary element the strings of scripts, styles and templates
    and the comments are left out. *)
Theorem cloudflare_check_iff (d : soup) :
  (cloudflare_check d = true <->
   exists pre n post,
     Soup.elements d = pre ++ n :: post /\
     Forall (fun m => carries_id "challenge-error-title" m = false) pre /\
     carries_id "challenge-error-title" n = true /\
     Soup.get_text n = challenge_phrase) /\
  cloudflare_check [] = false /\
  cloudflare_check lookalike_page = false /\
  cloudflare_check challenge_page = true /\
  cloudflare_check scripted_challenge_page = true /\
  (forall name attrs cs,
     Soup.get_text (Tag name attrs cs)
     = PyStr.join (map (Soup.all_strings (Soup.string_container name)) cs)).
Proof.
  split; [|do 4 (split; [reflexivity|]); apply get_text_tag].
  unfold cloudflare_check, f. rewrite find_first.
  destruct (List.find _ _) as [n|] eqn:Hf.
  - apply find_some_first in Hf as (pre & post & Hd & Hpre & Hn).
    rewrite String.eqb_eq. split.
    + intros Ht. exists pre, n, post. by repeat split.
    + intros (pre' & n' & post' & Hd' & Hpre' & Hn' & Ht).
      assert (List.find (carries_id "challenge-error-title") (Soup.elements d) = Some n) as H1.
      { apply find_some_first. eauto. }
      assert (List.find (carries_id "challenge-error-title") (Soup.elements d) = Some n') as H2.
      { apply find_some_first. eauto. }
      rewrite H1 in H2. injection H2 as ->. by symmetry.
  - split; [discriminate|].
    intros (pre & n & post & Hd & Hpre & Hn & _).
    assert (List.find (carries_id "challenge-error-title") (Soup.elements d) = Some n) as H1.
    { apply find_some_first. eauto. }
    congruence.
Qed.

(** C8 (as stated) fails: an element whose text is exactly the phrase
    but which does not carry the id [challenge-error-title] is in the
    document, and the detector answers false. *)
Lemma cloudflare_check_needs_the_id :
  ~ (forall d : soup,
       cloudflare_check d = true <->
       exists n, In n (Soup.elements d) /\ Soup.get_text n = challenge_phrase).
Proof.
  intros H.
  destruct (H unmarked_phrase_page) as [_ H2].
  assert (cloudflare_check unmarked_phrase_page = true) as Hc.
  { apply H2. exists (Tag "p" ∅ [NavigableString challenge_phrase]).
    split; [left; reflexivity|reflexivity]. }
  vm_compute in Hc. discriminate.
Qed.

(** ** One attempt of the retry chain *)

Ltac run :=
  unfold mbind, M_bind, mret, M_ret, bind, ret, raise, pending, get_self,
    put_self, emit, read_file, store_file in *; cbn in *.

Lemma emit_twice (url : string) (proxy : option string) (delay : Z) (w : world) :
  mkWorld (self w) (disk w) ((trace w ++ [Sleep delay]) ++ [Get url proxy])
  = attempted url proxy delay w.
Proof. unfold attempted. by rewrite <- app_assoc. Qed.

Lemma fetch_unfold (rs : list transport) (url : string) (delay : Z) (w : world) :
  fetch rs url delay w
  = match select_proxy w with
    | (Return proxy, w1) =>
        match rs with
        | [] => (Pending, attempted url proxy delay w1)
        | r :: rs' =>
            if retried r
            then call_again (fetch rs') url proxy delay (attempted url proxy delay w1)
            else (settle r, attempted url proxy delay w1)
        end
    | (Raise e, w1) => (Raise e, w1)
    | (Pending, w1) => (Pending, w1)
    end.
Proof.
  unfold select_proxy.
  destruct rs as [|r rs']; cbn [fetch]; run.
  - destruct (USE_PROXY (self w)); [destruct (get_proxy w) as [[p| |] w1]|];
      cbn; rewrite ?emit_twice; reflexivity.
  - destruct (USE_PROXY (self w)); [destruct (get_proxy w) as [[p| |] w1]|];
      cbn; rewrite ?emit_twice; try reflexivity.
    + destruct r as [e|status [result|e]]; cbn.
      * by destruct (caught e).
      * destruct (status =? 403)%Z, (status =? 404)%Z; cbn; try reflexivity.
        by destruct (cloudflare_check result).
      * destruct (status =? 403)%Z, (status =? 404)%Z; cbn; try reflexivity.
        by destruct (caught e).
    + destruct r as [e|status [result|e]]; cbn.
      * by destruct (caught e).
      * destruct (status =? 403)%Z, (status =? 404)%Z; cbn; try reflexivity.
        by destruct (cloudflare_check result).
      * destruct (status =? 403)%Z, (status =? 404)%Z; cbn; try reflexivity.
        by destruct (caught e).
Qed.

(** [call_again] without a proxy: the next attempt sleeps one step longer. *)
Lemma call_again_direct (k : string -> Z -> M soup) (url : string)
    (proxy : option string) (delay : Z) (w : world) :
  USE_PROXY (self w) = false ->
  call_again k url proxy delay w = k url (next_delay delay (MAX_DELAY (self w))) w.
Proof. intros H. unfold call_again. run. by rewrite H. Qed.

(** [call_again] with a proxy: rotate, read the new head for the log,
    start over without delay. *)
Lemma call_again_proxy (k : string -> Z -> M soup) (url : string)
    (proxy : option string) (delay : Z) (w : world) :
  USE_PROXY (self w) = true ->
  call_again k url proxy delay w
  = match switch_proxy proxy w with
    | (Return _, w1) =>
        match get_proxy w1 with
        | (Return _, w2) => k url 0 w2
        | (Raise e, w2) => (Raise e, w2)
        | (Pending, w2) => (Pending, w2)
        end
    | (Raise e, w1) => (Raise e, w1)
    | (Pending, w1) => (Pending, w1)
    end.
Proof.
  intros H. unfold call_again. run. rewrite H.
  destruct (switch_proxy proxy w) as [[[]| |] w1]; try reflexivity.
Qed.

(** ** The pool operations and the world *)

(** [get_proxy] on a file-backed pool: the first line, stripped, or
    [None] when that is empty. *)
Lemma get_proxy_file (path content : string) (w : world) :
  file_backed path w ->
  disk w !! path = Some content ->
  get_proxy w
  = (Return (let proxy := PyStr.strip (TextFile.readline content) in
             if PyStr.truthy proxy then Some proxy else None), w).
Proof.
  unfold file_backed, get_proxy. intros Hp Hc. run. rewrite Hp, Hc. simpl.
  by destruct (PyStr.truthy _).
Qed.

Lemma get_proxy_missing_file (path : string) (w : world) :
  file_backed path w ->
  disk w !! path = None ->
  get_proxy w = (Raise FileNotFoundError, w).
Proof. unfold file_backed, get_proxy. intros Hp Hc. run. by rewrite Hp, Hc. Qed.

(** [switch_proxy] on a file-backed pool. *)
Lemma switch_proxy_file (path content p : string) (w : world) :
  file_backed path w ->
  disk w !! path = Some content ->
  switch_proxy (Some p) w
  = (Return tt, with_file path (TextFile.overwrite content (rewritten content p)) w).
Proof. unfold file_backed, switch_proxy. intros Hp Hc. run. by rewrite Hp, Hc. Qed.

Lemma switch_proxy_file_none (path content : string) (w : world) :
  file_backed path w ->
  disk w !! path = Some content ->
  switch_proxy None w
  = (Raise TypeError,
     with_file path
       (TextFile.overwrite content (PyStr.join (TextFile.readlines content))) w).
Proof.
  unfold file_backed, switch_proxy. intros Hp Hc. run. rewrite Hp, Hc. simpl.
  f_equal. unfold with_file. do 3 f_equal.
  induction (TextFile.readlines content) as [|l ls IH]; [done|].
  cbn. by rewrite IH.
Qed.

Lemma switch_proxy_missing_file (path : string) (proxy : option string) (w : world) :
  file_backed path w ->
  disk w !! path = None ->
  switch_proxy proxy w = (Raise FileNotFoundError, w).
Proof. unfold file_backed, switch_proxy. intros Hp Hc. run. by rewrite Hp, Hc. Qed.

Lemma pool_backing (w : world) :
  in_memory w \/ exists path, file_backed path w.
Proof.
  unfold in_memory, file_backed.
  destruct (Truthy.str (PROXY_PATH (self w))); eauto.
Qed.

(** [get_proxy] reads; it leaves the world as it found it and never
    waits for the environment. *)
Lemma get_proxy_reads (w : world) :
  snd (get_proxy w) = w /\ fst (get_proxy w) <> Pending.
Proof.
  destruct (pool_backing w) as [Hm|[path Hp]].
  - unfold in_memory in Hm. unfold get_proxy. run. rewrite Hm.
    by destruct (PROXY_LIST (self w)) as [[|p l]|].
  - destruct (disk w !! path) as [content|] eqn:Hc.
    + by rewrite (get_proxy_file path content).
    + by rewrite (get_proxy_missing_file path).
Qed.

Lemma get_proxy_returns (w w' : world) (o : outcome (option string)) :
  get_proxy w = (o, w') -> w' = w.
Proof. intros H. pose proof (proj1 (get_proxy_reads w)) as E. by rewrite H in E. Qed.

(** Once [switch_proxy] has returned, the head of the pool can be read. *)
Lemma get_proxy_after_switch (proxy : option string) (w w1 : world) :
  switch_proxy proxy w = (Return tt, w1) ->
  exists q, get_proxy w1 = (Return q, w1).
Proof.
  destruct (pool_backing w) as [Hm|[path Hp]].
  - unfold in_memory in Hm. unfold switch_proxy. run. rewrite Hm.
    destruct (PROXY_LIST (self w)) as [[|p l]|] eqn:Hl; try discriminate.
    intros [= <-].
    destruct (l ++ [p]) as [|q l'] eqn:Hq; [by destruct l|].
    exists (Some q). apply (get_proxy_in_memory _ q l'); [exact Hm|].
    reflexivity.
  - destruct (disk w !! path) as [content|] eqn:Hc.
    + destruct proxy as [p|].
      * rewrite (switch_proxy_file path content) by done. intros [= <-].
        eexists. apply (get_proxy_file path); [exact Hp|].
        apply lookup_insert_eq.
      * by rewrite (switch_proxy_file_none path content).
    + by rewrite (switch_proxy_missing_file path).
Qed.

(** [switch_proxy] never waits for the environment either. *)
Lemma switch_proxy_not_pending (proxy : option string) (w : world) :
  fst (switch_proxy proxy w) <> Pending.
Proof.
  destruct (pool_backing w) as [Hm|[path Hp]].
  - unfold in_memory in Hm. unfold switch_proxy. run. rewrite Hm.
    by destruct (PROXY_LIST (self w)) as [[|p l]|].
  - destruct (disk w !! path) as [content|] eqn:Hc.
    + destruct proxy as [p|].
      * by rewrite (switch_proxy_file path content).
      * by rewrite (switch_proxy_file_none path content).
    + by rewrite (switch_proxy_missing_file path).
Qed.

(** A [call_again] that returns went through its [fetch]. *)
Lemma call_again_returned (k : string -> Z -> M soup) (url : string)
    (proxy : option string) (delay : Z) (w w' : world) (x : soup) :
  call_again k url proxy delay w = (Return x, w') ->
  exists delay' w1, k url delay' w1 = (Return x, w').
Proof.
  destruct (USE_PROXY (self w)) eqn:Hu.
  - rewrite call_again_proxy by done.
    destruct (switch_proxy proxy w) as [[[]| |] w1]; try discriminate.
    destruct (get_proxy w1) as [[q| |] w2]; try discriminate. eauto.
  - rewrite call_again_direct by done. eauto.
Qed.

(** ** A pool that cannot fail

    No proxy at all, or an in-memory pool with at least one entry. *)

Lemma unfailing_select (w : world) :
  unfailing w -> exists proxy, select_proxy w = (Return proxy, w).
Proof.
  unfold select_proxy. intros [Hu|(Hu & Hm & p & rest & Hl)]; rewrite Hu; [eauto|].
  rewrite (get_proxy_in_memory w p rest) by done. eauto.
Qed.

Lemma unfailing_attempted (url : string) (proxy : option string) (delay : Z) (w : world) :
  unfailing w -> unfailing (attempted url proxy delay w).
Proof. intros H. exact H. Qed.

Lemma unfailing_call_again (k : string -> Z -> M soup) (url : string)
    (proxy : option string) (delay : Z) (w : world) :
  unfailing w ->
  exists delay' w1, unfailing w1 /\ call_again k url proxy delay w = k url delay' w1.
Proof.
  intros [Hu|(Hu & Hm & p & rest & Hl)].
  - rewrite call_again_direct by done. exists (next_delay delay (MAX_DELAY (self w))), w.
    split; [by left|done].
  - rewrite call_again_proxy by done.
    rewrite (switch_proxy_in_memory w p rest) by done.
    set (w1 := with_self _ w).
    assert (unfailing w1) as H1.
    { right. split; [exact Hu|]. split; [exact Hm|].
      cbn. destruct rest as [|q rest]; cbn; eauto. }
    destruct H1 as [H1|(_ & Hm1 & q & rest1 & Hl1)].
    + cbn in H1. congruence.
    + rewrite (get_proxy_in_memory w1 q rest1) by done.
      exists 0, w1. split; [|done]. right. eauto 6.
Qed.

(** ** The retry chain *)

(** An attempt that is retried hands over to [call_again]. *)
Lemma fetch_retried (r : transport) (rs : list transport) (url : string)
    (delay : Z) (proxy : option string) (w : world) :
  retried r = true ->
  select_proxy w = (Return proxy, w) ->
  fetch (r :: rs) url delay w
  = call_again (fetch rs) url proxy delay (attempted url proxy delay w).
Proof. intros Hr Hs. by rewrite fetch_unfold, Hs, Hr. Qed.

(** An attempt that is not retried ends the chain. *)
Lemma fetch_settled (r : transport) (rs : list transport) (url : string)
    (delay : Z) (proxy : option string) (w : world) :
  retried r = false ->
  select_proxy w = (Return proxy, w) ->
  fetch (r :: rs) url delay w = (settle r, attempted url proxy delay w).
Proof. intros Hr Hs. by rewrite fetch_unfold, Hs, Hr. Qed.

Lemma retried_response (status : Z) (result : soup) :
  retried (Responds status (Text result)) = false <->
  status <> 403 /\ status <> 404 /\ cloudflare_check result = false.
Proof.
  cbn. rewrite !orb_false_iff, !Z.eqb_neq. tauto.
Qed.

(** Whatever [fetch] returns is the body of the first attempt that was
    not retried. *)
Lemma fetch_returned (rs : list transport) (url : string) (delay : Z)
    (w w' : world) (doc : soup) :
  fetch rs url delay w = (Return doc, w') ->
  exists pre status post,
    rs = pre ++ Responds status (Text doc) :: post /\
    Forall (fun r => retried r = true) pre /\
    retried (Responds status (Text doc)) = false.
Proof.
  revert delay w. induction rs as [|r rs IH]; intros delay w; rewrite fetch_unfold.
  - by destruct (select_proxy w) as [[proxy| |] w1].
  - destruct (select_proxy w) as [[proxy| |] w1]; try discriminate.
    destruct (retried r) eqn:Hr.
    + intros H. apply call_again_returned in H as (delay' & w2 & H).
      apply IH in H as (pre & status & post & -> & Hpre & Hs).
      exists (r :: pre), status, post. repeat split; [by constructor|exact Hs].
    + intros [= Hs _].
      destruct r as [e|status [result|e]]; try discriminate.
      cbn in Hs. injection Hs as ->.
      exists [], status, rs. by repeat split.
Qed.

(** With a pool that cannot fail, [fetch] returns at the first attempt
    that is not retried. *)
Lemma fetch_returns (pre post : list transport) (status : Z) (doc : soup)
    (url : string) (delay : Z) (w : world) :
  unfailing w ->
  Forall (fun r => retried r = true) pre ->
  retried (Responds status (Text doc)) = false ->
  fst (fetch (pre ++ Responds status (Text doc) :: post) url delay w) = Return doc.
Proof.
  intros Hw Hpre Hs. revert delay w Hw.
  induction Hpre as [|r pre Hr _ IH]; intros delay w Hw;
    destruct (unfailing_select w Hw) as [proxy Hsel]; cbn [app].
  - by rewrite (fetch_settled _ _ _ _ proxy).
  - rewrite (fetch_retried _ _ _ _ proxy) by done.
    destruct (unfailing_call_again (fetch (pre ++ Responds status (Text doc) :: post))
                url proxy delay (attempted url proxy delay w)) as (delay' & w1 & Hw1 & ->).
    { by apply unfailing_attempted. }
    by apply IH.
Qed.

(** C1 (as amended): [fetch] never returns a document on which the
    challenge detector fires.  Every attempt that meets a caught
    transport exception, a status 403 or 404, or a body on which the
    detector fires is retried; what [fetch] returns is the body of the
    first attempt that met none of these, whose status is any other
    than 403 and 404.  With no proxy, or with an in-memory pool that
    is not empty, [fetch] does return at that attempt. *)
Theorem fetch_returns_first_unchallenged :
  (forall rs url delay w w' doc,
     fetch rs url delay w = (Return doc, w') ->
     cloudflare_check doc = false /\
     exists pre status post,
       rs = pre ++ Responds status (Text doc) :: post /\
       Forall (fun r => retried r = true) pre /\
       status <> 403 /\ status <> 404) /\
  (forall r rs url delay proxy w,
     retried r = true ->
     select_proxy w = (Return proxy, w) ->
     fetch (r :: rs) url delay w
     = call_again (fetch rs) url proxy delay (attempted url proxy delay w)) /\
  (forall pre status doc post url delay w,
     unfailing w ->
     Forall (fun r => retried r = true) pre ->
     status <> 403 -> status <> 404 -> cloudflare_check doc = false ->
     fst (fetch (pre ++ Responds status (Text doc) :: post) url delay w) = Return doc).
Proof.
  split; [|split].
  - intros rs url delay w w' doc H.
    apply fetch_returned in H as (pre & status & post & -> & Hpre & Hs).
    apply retried_response in Hs as (H403 & H404 & Hc).
    split; [exact Hc|]. exists pre, status, post. by repeat split.
  - intros. by apply fetch_retried.
  - intros pre status doc post url delay w Hw Hpre H403 H404 Hc.
    apply fetch_returns; [exact Hw|exact Hpre|]. by apply retried_response.
Qed.

(** ** Strings, lines and the pool file *)

Lemma append_cons (x : ascii) (a b : string) :
  String x a +:+ b = String x (a +:+ b).
Proof. reflexivity. Qed.

Lemma append_assoc (a b c : string) : (a +:+ b) +:+ c = a +:+ (b +:+ c).
Proof. induction a as [|x a IH]; [done|]. by rewrite !append_cons, IH. Qed.

Lemma append_empty (a : string) : a +:+ EmptyString = a.
Proof. induction a as [|x a IH]; [done|]. by rewrite append_cons, IH. Qed.

Lemma length_append (a b : string) :
  String.length (a +:+ b) = (String.length a + String.length b)%nat.
Proof.
  induction a as [|x a IH]; [done|].
  rewrite append_cons. cbn [String.length]. by rewrite IH.
Qed.

Lemma drop_all (a : string) : PyStr.drop (String.length a) a = EmptyString.
Proof. induction a as [|x a IH]; simpl; [done|exact IH]. Qed.

(** Writing as many characters as the file holds replaces the file. *)
Lemma overwrite_same_length (content written : string) :
  String.length written = String.length content ->
  TextFile.overwrite content written = written.
Proof.
  intros H. unfold TextFile.overwrite. by rewrite H, drop_all, append_empty.
Qed.

Lemma join_app (l1 l2 : list string) :
  PyStr.join (l1 ++ l2) = PyStr.join l1 +:+ PyStr.join l2.
Proof.
  induction l1 as [|a l1 IH]; [done|].
  cbn [List.app PyStr.join]. by rewrite IH, append_assoc.
Qed.

Lemma pool_file_app (l1 l2 : list string) :
  pool_file (l1 ++ l2) = pool_file l1 +:+ pool_file l2.
Proof. unfold pool_file. by rewrite map_app, join_app. Qed.

Lemma pool_file_cons (p : string) (l : list string) :
  pool_file (p :: l) = p +:+ PyStr.nl +:+ pool_file l.
Proof. unfold pool_file. cbn. by rewrite append_assoc. Qed.

Lemma isspace_not_newline (c : ascii) :
  PyStr.isspace c = false ->
  Ascii.eqb c PyStr.CR = false /\ Ascii.eqb c PyStr.LF = false.
Proof.
  intros H. split.
  - destruct (Ascii.eqb_spec c PyStr.CR) as [->|]; [discriminate|done].
  - destruct (Ascii.eqb_spec c PyStr.LF) as [->|]; [discriminate|done].
Qed.

Lemma universal_newlines_line (p rest : string) :
  has_space p = false ->
  TextFile.universal_newlines (p +:+ PyStr.nl +:+ rest)
  = p +:+ PyStr.nl +:+ TextFile.universal_newlines rest.
Proof.
  induction p as [|c p IH]; intros H; [reflexivity|].
  cbn in H. apply orb_false_iff in H as [Hc Hp].
  destruct (isspace_not_newline c Hc) as [Hcr _].
  rewrite append_cons. cbn [TextFile.universal_newlines]. rewrite Hcr. by rewrite IH.
Qed.

Lemma splitlines_line (p rest : string) :
  has_space p = false ->
  TextFile.splitlines (p +:+ PyStr.nl +:+ rest)
  = (p +:+ PyStr.nl) :: TextFile.splitlines rest.
Proof.
  induction p as [|c p IH]; intros H; [reflexivity|].
  cbn in H. apply orb_false_iff in H as [Hc Hp].
  destruct (isspace_not_newline c Hc) as [_ Hlf].
  rewrite append_cons. cbn [TextFile.splitlines]. rewrite Hlf. by rewrite IH.
Qed.

(** The lines of a regular pool file are its endpoints, each with its
    newline. *)
Lemma readlines_pool_file (l : list string) :
  Forall endpoint l ->
  TextFile.readlines (pool_file l) = map (fun p => p +:+ PyStr.nl) l.
Proof.
  unfold TextFile.readlines.
  assert (Forall endpoint l ->
          TextFile.universal_newlines (pool_file l) = pool_file l) as Hu.
  { induction 1 as [|p l [_ Hp] _ IH]; [reflexivity|].
    by rewrite pool_file_cons, universal_newlines_line, IH. }
  intros Hl. rewrite Hu by exact Hl. clear Hu.
  induction Hl as [|p l [_ Hp] _ IH]; [reflexivity|].
  by rewrite pool_file_cons, splitlines_line, IH.
Qed.

Lemma rstrip_line (p : string) :
  has_space p = false -> PyStr.rstrip (p +:+ PyStr.nl) = p.
Proof.
  induction p as [|c p IH]; intros H; [reflexivity|].
  cbn in H. apply orb_false_iff in H as [Hc Hp].
  rewrite append_cons. cbn [PyStr.rstrip]. by rewrite IH, Hc.
Qed.

Lemma strip_line (p : string) :
  endpoint p -> PyStr.strip (p +:+ PyStr.nl) = p.
Proof.
  intros [Hne Hp]. unfold PyStr.strip.
  destruct p as [|c p]; [done|].
  pose proof Hp as Hp'. cbn in Hp'. apply orb_false_iff in Hp' as [Hc _].
  rewrite append_cons. cbn [PyStr.lstrip]. rewrite Hc. rewrite <- append_cons.
  by apply (rstrip_line (String c p)).
Qed.

Lemma filter_lines (l : list string) (e : string) :
  Forall endpoint l ->
  List.filter (fun line => differs line (Some e)) (map (fun p => p +:+ PyStr.nl) l)
  = map (fun p => p +:+ PyStr.nl) (List.filter (fun p => negb (String.eqb p e)) l).
Proof.
  induction 1 as [|p l Hp _ IH]; [reflexivity|].
  cbn [map List.filter]. unfold differs at 1. rewrite strip_line by exact Hp.
  destruct (String.eqb p e); cbn [negb map]; [exact IH|by rewrite IH].
Qed.

(** What [switch_proxy] writes into a regular pool file: the endpoints
    other than [e], in order, then [e]. *)
Lemma rewritten_pool_file (l : list string) (e : string) :
  Forall endpoint l ->
  rewritten (pool_file l) e
  = pool_file (List.filter (fun p => negb (String.eqb p e)) l ++ [e]).
Proof.
  intros Hl. unfold rewritten.
  rewrite readlines_pool_file, filter_lines by exact Hl.
  rewrite pool_file_app. f_equal.
  unfold pool_file. cbn [map PyStr.join]. by rewrite append_empty.
Qed.

Lemma filter_absent (e : string) (l : list string) :
  ~ In e l -> List.filter (fun p => negb (String.eqb p e)) l = l.
Proof.
  induction l as [|a l IH]; intros H; [reflexivity|].
  cbn. destruct (String.eqb_spec a e) as [->|Hne].
  - destruct H. by left.
  - cbn. rewrite IH; [done|]. intros Hin. apply H. by right.
Qed.

Lemma filter_single (e : string) (pre post : list string) :
  ~ In e pre -> ~ In e post ->
  List.filter (fun p => negb (String.eqb p e)) (pre ++ e :: post) = pre ++ post.
Proof.
  intros H1 H2. rewrite List.filter_app. cbn. rewrite String.eqb_refl. cbn.
  by rewrite !filter_absent.
Qed.

Lemma remove_first_single (e : string) (pre post : list string) :
  ~ In e pre -> Spec.remove_first e (pre ++ e :: post) = pre ++ post.
Proof.
  induction pre as [|a pre IH]; intros H; cbn.
  - by rewrite String.eqb_refl.
  - destruct (String.eqb_spec a e) as [->|Hne].
    + destruct H. by left.
    + rewrite IH; [done|]. intros Hin. apply H. by right.
Qed.

Lemma pool_file_length_perm (l1 l2 : list string) :
  Permutation l1 l2 ->
  String.length (pool_file l1) = String.length (pool_file l2).
Proof.
  induction 1 as [|x l1 l2 _ IH|x y l|l1 l2 l3 _ IH1 _ IH2].
  - reflexivity.
  - rewrite !pool_file_cons, !length_append. lia.
  - rewrite !pool_file_cons, !length_append. lia.
  - congruence.
Qed.

(** Rotation of a regular pool file on an endpoint that occurs once:
    the other lines stay in order and the endpoint goes last. *)
Lemma switch_proxy_regular_file (path : string) (pre post : list string)
    (e : string) (w : world) :
  file_backed path w ->
  disk w !! path = Some (pool_file (pre ++ e :: post)) ->
  Forall endpoint (pre ++ e :: post) ->
  ~ In e pre -> ~ In e post ->
  switch_proxy (Some e) w
  = (Return tt, with_file path (pool_file (pre ++ post ++ [e])) w).
Proof.
  intros Hp Hc Hl H1 H2.
  rewrite (switch_proxy_file path _ e w Hp Hc).
  rewrite rewritten_pool_file by exact Hl.
  rewrite filter_single by done.
  rewrite overwrite_same_length; [by rewrite <- app_assoc|].
  apply pool_file_length_perm.
  rewrite <- app_assoc. apply Permutation_app_head. symmetry.
  apply Permutation_cons_append.
Qed.

(** The head of a regular pool file. *)
Lemma get_proxy_regular_file (path : string) (p : string) (rest : list string)
    (w : world) :
  file_backed path w ->
  disk w !! path = Some (pool_file (p :: rest)) ->
  Forall endpoint (p :: rest) ->
  get_proxy w = (Return (Some p), w).
Proof.
  intros Hp Hc Hl. rewrite (get_proxy_file path _ w Hp Hc).
  unfold TextFile.readline. rewrite readlines_pool_file by exact Hl.
  apply Forall_cons in Hl as [He _]. cbn [map].
  rewrite strip_line by exact He.
  destruct He as [Hne _]. by destruct p.
Qed.

(** A challenge page, then a page of the site: the second is returned. *)
Lemma fetch_returns_first_unchallenged_witness :
  fst (fetch [Responds 200 (Text challenge_page); Responds 200 (Text plain_page)]
         "https://www.hltv.org/matches" 0 (fresh init_default))
  = Return plain_page.
Proof.
  apply (proj2 (proj2 fetch_returns_first_unchallenged)
           [Responds 200 (Text challenge_page)] 200 plain_page []).
  - left. reflexivity.
  - repeat constructor.
  - lia.
  - lia.
  - reflexivity.
Defined.

(** C1 (as stated) fails twice: a 200 response whose body holds the
    exact phrase in an element without the id [challenge-error-title]
    is returned, and so is a response with a status other than 200. *)
Lemma fetch_returns_phrase_and_other_status :
  ~ (forall rs url delay w w' doc,
       fetch rs url delay w = (Return doc, w') ->
       occurs_in challenge_phrase (Soup.text doc) = false) /\
  ~ (forall rs url delay w w' doc,
       fetch rs url delay w = (Return doc, w') ->
       exists pre post, rs = pre ++ Responds 200 (Text doc) :: post).
Proof.
  split; intros H.
  - specialize (H [Responds 200 (Text unmarked_phrase_page)] "u" 0 (fresh init_default)
                  _ unmarked_phrase_page eq_refl).
    vm_compute in H. discriminate.
  - destruct (H [Responds 500 (Text plain_page)] "u" 0 (fresh init_default)
                _ plain_page eq_refl) as (pre & post & E).
    destruct pre as [|r pre]; [discriminate|].
    injection E as _ E. by destruct pre.
Qed.

(** ** Retry: rotation or backoff *)

(** A retried attempt on an in-memory pool: the head goes to the tail
    and the chain starts over without delay. *)
Lemma fetch_retried_in_memory (r : transport) (rs : list transport) (url : string)
    (delay : Z) (p : string) (rest : list string) (w : world) :
  retried r = true ->
  USE_PROXY (self w) = true ->
  in_memory w ->
  PROXY_LIST (self w) = Some (p :: rest) ->
  fetch (r :: rs) url delay w
  = fetch rs url 0
      (with_self (set_PROXY_LIST (Some (rest ++ [p])) (self w))
         (attempted url (Some p) delay w)).
Proof.
  intros Hr Hu Hm Hl.
  rewrite (fetch_retried r rs url delay (Some p)); [|exact Hr|].
  2:{ unfold select_proxy. rewrite Hu. by apply get_proxy_in_memory with rest. }
  rewrite call_again_proxy by exact Hu.
  rewrite (switch_proxy_in_memory _ p rest) by done.
  destruct (rest ++ [p]) as [|q tl] eqn:Hq; [by destruct rest|].
  by rewrite (get_proxy_in_memory _ q tl).
Qed.

Lemma fetch_retried_direct (r : transport) (rs : list transport) (url : string)
    (delay : Z) (w : world) :
  retried r = true ->
  USE_PROXY (self w) = false ->
  fetch (r :: rs) url delay w
  = fetch rs url (next_delay delay (MAX_DELAY (self w)))
      (attempted url (Some EmptyString) delay w).
Proof.
  intros Hr Hu.
  rewrite (fetch_retried r rs url delay (Some EmptyString)); [|exact Hr|].
  2:{ unfold select_proxy. by rewrite Hu. }
  by rewrite call_again_direct.
Qed.




(** C7: with proxy mode off and [MAX_DELAY = 15], a 403, another 403
    and then a 200 whose body the detector does not flag make [fetch]
    return at the third attempt the document of the third response,
    having slept 0, then 1, then 2 seconds before its three requests,
    all without a proxy. *)
Theorem fetch_403_403_200 (url : string) (b1 b2 : payload) (doc : soup)
    (h : Hltv) (files : gmap string string) (tr : list event) :
  USE_PROXY h = false ->
  MAX_DELAY h = 15 ->
  cloudflare_check doc = false ->
  let attempts := [Sleep 0; Get url (Some EmptyString);
                   Sleep 1; Get url (Some EmptyString);
                   Sleep 2; Get url (Some EmptyString)] in
  fetch [Responds 403 b1; Responds 403 b2; Responds 200 (Text doc)] url 0
    (mkWorld h files tr)
  = (Return (f doc), mkWorld h files (tr ++ attempts)) /\
  delays attempts = [0; 1; 2] /\
  length (proxies_used attempts) = 3%nat.
Proof.
  intros Hu Hmax Hc attempts. split; [|split; reflexivity].
  rewrite fetch_retried_direct by done.
  rewrite fetch_retried_direct by done.
  rewrite (fetch_settled _ _ _ _ (Some EmptyString)).
  - cbn [self attempted]. rewrite Hmax. unfold attempted. cbn.
    by rewrite <- !app_assoc.
  - apply retried_response. repeat split; [lia|lia|exact Hc].
  - unfold select_proxy. cbn [self attempted]. by rewrite Hu.
Qed.

(** The scenario on a fresh default object. *)
Lemma fetch_403_403_200_witness :
  fetch [Responds 403 (Text challenge_page); Responds 403 (Broken OtherError);
         Responds 200 (Text plain_page)]
    "https://www.hltv.org/matches" 0 (mkWorld init_default ∅ [])
  = (Return (f plain_page),
     mkWorld init_default ∅
       ([] ++ [Sleep 0; Get "https://www.hltv.org/matches" (Some EmptyString);
               Sleep 1; Get "https://www.hltv.org/matches" (Some EmptyString);
               Sleep 2; Get "https://www.hltv.org/matches" (Some EmptyString)])).
Proof.
  apply (fetch_403_403_200 "https://www.hltv.org/matches"
           (Text challenge_page) (Broken OtherError) plain_page init_default ∅ []);
    reflexivity.
Defined.

(** ** Rotation as a permutation *)

Lemma with_self_same (w : world) (l : list string) :
  PROXY_LIST (self w) = Some l ->
  with_self (set_PROXY_LIST (Some l) (self w)) w = w.
Proof.
  destruct w as [[m t u pp pl d pf] files tr]. cbn. by intros ->.
Qed.

Lemma with_file_same (w : world) (path content : string) :
  disk w !! path = Some content -> with_file path content w = w.
Proof.
  destruct w as [h files tr]. unfold with_file. cbn. intros H.
  by rewrite insert_id.
Qed.

Lemma with_file_twice (w : world) (path c1 c2 : string) :
  with_file path c2 (with_file path c1 w) = with_file path c2 w.
Proof. unfold with_file. cbn. by rewrite insert_insert_eq. Qed.

(** [n] rotations of the head of an in-memory pool bring its first [n]
    entries behind the others. *)
Lemma rotate_head_in_memory (l1 l2 : list string) (w : world) :
  in_memory w ->
  PROXY_LIST (self w) = Some (l1 ++ l2) ->
  rotate_head (length l1) w
  = (Return tt, with_self (set_PROXY_LIST (Some (l2 ++ l1)) (self w)) w).
Proof.
  revert l2 w. induction l1 as [|a l1 IH]; intros l2 w Hm Hl.
  - cbn [length rotate_head]. rewrite app_nil_r. by rewrite with_self_same.
  - cbn [length rotate_head]. run.
    rewrite (get_proxy_in_memory w a (l1 ++ l2)) by done.
    rewrite (switch_proxy_in_memory w a (l1 ++ l2)) by done.
    rewrite (IH (l2 ++ [a])); [|exact Hm|by cbn; rewrite <- app_assoc].
    unfold with_self. cbn. by rewrite <- app_assoc.
Qed.

(** The same on a regular pool file of distinct endpoints. *)
Lemma rotate_head_file (path : string) (l1 l2 : list string) (w : world) :
  file_backed path w ->
  disk w !! path = Some (pool_file (l1 ++ l2)) ->
  Forall endpoint (l1 ++ l2) ->
  NoDup (l1 ++ l2) ->
  rotate_head (length l1) w = (Return tt, with_file path (pool_file (l2 ++ l1)) w).
Proof.
  revert l2 w. induction l1 as [|a l1 IH]; intros l2 w Hp Hc Hl Hd.
  - cbn [length rotate_head]. rewrite app_nil_r. by rewrite with_file_same.
  - cbn [length rotate_head]. run.
    rewrite (get_proxy_regular_file path a (l1 ++ l2) w) by done.
    pose proof Hd as Hd'. cbn in Hd'. apply NoDup_cons in Hd' as [Ha _].
    rewrite (switch_proxy_regular_file path [] (l1 ++ l2) a w Hp Hc Hl);
      [|by intros []|by rewrite <- list_elem_of_In].
    cbn [app].
    assert (Permutation (a :: l1 ++ l2) (l1 ++ l2 ++ [a])) as Hperm.
    { rewrite app_assoc. apply Permutation_cons_append. }
    rewrite (IH (l2 ++ [a])).
    + rewrite with_file_twice. by rewrite <- app_assoc.
    + exact Hp.
    + unfold with_file. cbn. rewrite lookup_insert_eq. by rewrite <- app_assoc.
    + by rewrite <- Hperm.
    + by rewrite <- Hperm.
Qed.

(** C4 (as amended): on an in-memory pool with at least one entry,
    [switch_proxy] moves the current head to the tail whatever endpoint
    it is given, which is the removal of the first occurrence of the
    endpoint followed by appending it when the endpoint is the head;
    on a file-backed pool in regular form in which the endpoint occurs
    exactly once, it leaves the file with the other endpoints in their
    order followed by the endpoint.  In both cases, duplicates allowed
    in memory, the new contents are a permutation of the old, and
    rotating the current head N times on a pool of size N (in a file:
    of distinct endpoints) leaves the world as it was. *)
Theorem switch_proxy_rotates :
  (forall w p rest e,
     in_memory w -> PROXY_LIST (self w) = Some (p :: rest) ->
     switch_proxy e w
     = (Return tt, with_self (set_PROXY_LIST (Some (rest ++ [p])) (self w)) w) /\
     rest ++ [p] = Spec.rotate p (p :: rest) /\
     Permutation (p :: rest) (rest ++ [p])) /\
  (forall w path pre post e,
     file_backed path w ->
     disk w !! path = Some (pool_file (pre ++ e :: post)) ->
     Forall endpoint (pre ++ e :: post) ->
     ~ In e pre -> ~ In e post ->
     switch_proxy (Some e) w
     = (Return tt, with_file path (pool_file (Spec.rotate e (pre ++ e :: post))) w) /\
     Permutation (pre ++ e :: post) (Spec.rotate e (pre ++ e :: post))) /\
  (forall w l,
     in_memory w -> PROXY_LIST (self w) = Some l ->
     rotate_head (length l) w = (Return tt, w)) /\
  (forall w path l,
     file_backed path w -> disk w !! path = Some (pool_file l) ->
     Forall endpoint l -> NoDup l ->
     rotate_head (length l) w = (Return tt, w)).
Proof.
  repeat apply conj.
  - intros w p rest e Hm Hl. repeat split.
    + by apply switch_proxy_in_memory.
    + unfold Spec.rotate. cbn. by rewrite String.eqb_refl.
    + apply Permutation_cons_append.
  - intros w path pre post e Hp Hc Hl H1 H2.
    unfold Spec.rotate. rewrite remove_first_single by exact H1.
    rewrite <- app_assoc. split.
    + by apply switch_proxy_regular_file.
    + apply Permutation_app_head. apply Permutation_cons_append.
  - intros w l Hm Hl.
    rewrite (rotate_head_in_memory l [] w Hm); [|by rewrite app_nil_r].
    cbn [app]. by rewrite with_self_same.
  - intros w path l Hp Hc Hl Hd.
    rewrite (rotate_head_file path l [] w Hp); rewrite ?app_nil_r; try done.
    cbn [app]. by rewrite with_file_same.
Qed.

(** A pool file rotated on its middle line; an in-memory pool with a
    duplicate brought back by three rotations. *)
Lemma switch_proxy_rotates_witness :
  switch_proxy (Some "P2")
    (mkWorld (init 15 5 true (Some "proxies.txt") None false)
       {[ "proxies.txt" := pool_file (["P1"] ++ "P2" :: ["P3"]) ]} [])
  = (Return tt,
     with_file "proxies.txt" (pool_file (Spec.rotate "P2" (["P1"] ++ "P2" :: ["P3"])))
       (mkWorld (init 15 5 true (Some "proxies.txt") None false)
          {[ "proxies.txt" := pool_file (["P1"] ++ "P2" :: ["P3"]) ]} [])) /\
  rotate_head (length ["P1"; "P1"; "P2"])
    (mkWorld (init 15 5 true None (Some ["P1"; "P1"; "P2"]) false) ∅ [])
  = (Return tt, mkWorld (init 15 5 true None (Some ["P1"; "P1"; "P2"]) false) ∅ []).
Proof.
  split.
  - apply (proj1 (proj2 switch_proxy_rotates)
             (mkWorld (init 15 5 true (Some "proxies.txt") None false)
                {[ "proxies.txt" := pool_file (["P1"] ++ "P2" :: ["P3"]) ]} [])
             "proxies.txt" ["P1"] ["P3"] "P2").
    + reflexivity.
    + reflexivity.
    + repeat constructor; discriminate.
    + intros [H|[]]. discriminate.
    + intros [H|[]]. discriminate.
  - apply (proj1 (proj2 (proj2 switch_proxy_rotates))
             (mkWorld (init 15 5 true None (Some ["P1"; "P1"; "P2"]) false) ∅ [])
             ["P1"; "P1"; "P2"]); reflexivity.
Defined.

(** C4 (as stated) fails: on the in-memory pool [P1; P2], rotating on
    [P2] moves [P1]; removing the first occurrence of [P2] and
    appending it would leave the pool as it is. *)
Lemma switch_proxy_moves_head_not_endpoint :
  ~ (forall w l e,
       in_memory w -> PROXY_LIST (self w) = Some l -> In e l ->
       exists w', switch_proxy (Some e) w = (Return tt, w') /\
                  PROXY_LIST (self w') = Some (Spec.rotate e l)).
Proof.
  intros H.
  destruct (H (mkWorld (init 15 5 true None (Some ["P1"; "P2"]) false) ∅ [])
              ["P1"; "P2"] "P2" eq_refl eq_refl) as (w' & Hs & Hl).
  { right. by left. }
  vm_compute in Hs. injection Hs as <-. vm_compute in Hl. discriminate.
Qed.

(** ** Where the pool operations go wrong *)

(** Rotation of a regular pool file in general: every line equal to
    the endpoint is dropped, the endpoint is written once at the end,
    and the text so written replaces the start of the file. *)
Lemma switch_proxy_pool_file (path : string) (l : list string) (e : string)
    (w : world) :
  file_backed path w ->
  disk w !! path = Some (pool_file l) ->
  Forall endpoint l ->
  switch_proxy (Some e) w
  = (Return tt,
     with_file path
       (TextFile.overwrite (pool_file l)
          (pool_file (List.filter (fun p => negb (String.eqb p e)) l ++ [e]))) w).
Proof.
  intros Hp Hc Hl. rewrite (switch_proxy_file path _ e w Hp Hc).
  by rewrite rewritten_pool_file.
Qed.

(** C5: on the pool file with the lines [P1], [P1], [P2], rotating on
    [P1] writes the two lines [P2], [P1] over the start of the file and
    leaves its third line in place: the file then reads [P2], [P1],
    [P2].  The line [P2] that the rotation does not touch is there
    twice, and of the two entries [P1] one is left. *)
Theorem switch_proxy_duplicate_stale_tail :
  let w := mkWorld (init 15 5 true (Some "proxies.txt") None false)
             {[ "proxies.txt" := pool_file ["P1"; "P1"; "P2"] ]} [] in
  rewritten (pool_file ["P1"; "P1"; "P2"]) "P1" = pool_file ["P2"; "P1"] /\
  switch_proxy (Some "P1") w
  = (Return tt, with_file "proxies.txt" (pool_file ["P2"; "P1"; "P2"]) w) /\
  pool_file ["P2"; "P1"; "P2"] <> pool_file ["P2"; "P1"] /\
  pool_file ["P2"; "P1"; "P2"] <> pool_file ["P1"; "P2"; "P1"] /\
  count_occ string_dec ["P1"; "P1"; "P2"] "P1" = 2%nat /\
  count_occ string_dec ["P2"; "P1"; "P2"] "P1" = 1%nat.
Proof. repeat split; try reflexivity; discriminate. Qed.

(** An empty in-memory pool with proxy mode on: [fetch] raises
    [IndexError] before it sleeps or sends anything, whatever the
    environment holds. *)
Lemma fetch_empty_in_memory_pool (rs : list transport) (url : string)
    (delay : Z) (w : world) :
  USE_PROXY (self w) = true ->
  in_memory w ->
  PROXY_LIST (self w) = Some [] ->
  fetch rs url delay w = (Raise IndexError, w).
Proof.
  intros Hu Hm Hl. rewrite fetch_unfold. unfold select_proxy. rewrite Hu.
  unfold in_memory in Hm. unfold get_proxy. run. by rewrite Hm, Hl.
Qed.

(** C6: with proxy mode on and a pool file that is empty, [get_proxy]
    returns [None] and raises nothing; [fetch] then sends its request
    without a proxy and returns the document.  The in-memory sibling
    raises on its empty pool. *)
Theorem get_proxy_empty_file :
  let h := init 15 5 true (Some "proxies.txt") None false in
  let w := mkWorld h {[ "proxies.txt" := EmptyString ]} [] in
  let url := "https://www.hltv.org/matches" in
  get_proxy w = (Return None, w) /\
  fetch [Responds 200 (Text plain_page)] url 0 w
  = (Return plain_page,
     mkWorld h {[ "proxies.txt" := EmptyString ]} [Sleep 0; Get url None]) /\
  get_proxy (fresh (init 15 5 true None (Some []) false))
  = (Raise IndexError, fresh (init 15 5 true None (Some []) false)).
Proof. repeat split; reflexivity. Qed.

(** * Properties beyond the claims *)

(** ** What the pool operations and the chain leave alone *)

Lemma framed_refl (url : string) (w : world) : framed url w w.
Proof.
  repeat split; try done.
  - intros l _ Hl. exists l. by split.
  - exists []. cbn. by rewrite app_nil_r.
Qed.

Lemma attempts_of_app (url : string) (l1 l2 : list (Z * option string)) :
  attempts_of url (l1 ++ l2) = attempts_of url l1 ++ attempts_of url l2.
Proof. unfold attempts_of. by rewrite flat_map_app. Qed.

Lemma framed_trans (url : string) (w w1 w2 : world) :
  framed url w w1 -> framed url w1 w2 -> framed url w w2.
Proof.
  intros ((Ha & Hb & Hc & Hd & He & Hf) & Ho & Hm & Hfl & Hpl & [l Ht])
         ((Ha' & Hb' & Hc' & Hd' & He' & Hf') & Ho' & Hm' & Hfl' & Hpl' & [l' Ht']).
  assert (forall P : option string -> Prop,
            P (Truthy.str (PROXY_PATH (self w))) -> P (Truthy.str (PROXY_PATH (self w1))))
    as Hpath by (intros P; by rewrite Hd).
  unfold framed, same_settings, other_files_kept, in_memory, file_backed in *.
  repeat split; try congruence.
  - intros other Hne. rewrite Ho'; [by apply Ho|]. by rewrite Hd.
  - intros Hw. rewrite Hm'; [by apply Hm|]. by rewrite Hd.
  - intros path Hw. rewrite (Hfl' path); [by apply (Hfl path)|]. by rewrite Hd.
  - intros l0 Hw Hl0. destruct (Hpl l0 Hw Hl0) as (l1 & Hl1 & Hp1).
    destruct (Hpl' l1) as (l2 & Hl2 & Hp2); [by rewrite Hd|exact Hl1|].
    exists l2. split; [exact Hl2|]. by transitivity l1.
  - exists (l ++ l'). by rewrite Ht', Ht, attempts_of_app, app_assoc.
Qed.

Lemma framed_attempted (url : string) (proxy : option string) (delay : Z) (w : world) :
  framed url w (attempted url proxy delay w).
Proof.
  repeat split; try done.
  - intros l _ Hl. exists l. by split.
  - by exists [(delay, proxy)].
Qed.

Lemma framed_switch_proxy (url : string) (proxy : option string) (w : world) :
  framed url w (snd (switch_proxy proxy w)).
Proof.
  destruct (pool_backing w) as [Hm|[path Hp]].
  - pose proof Hm as Hm'. unfold in_memory in Hm'.
    unfold switch_proxy. run. rewrite Hm'.
    destruct (PROXY_LIST (self w)) as [[|p l]|] eqn:Hl; try apply framed_refl.
    cbn. repeat split; try done.
    + intros path Hp. unfold file_backed in Hp. congruence.
    + intros l0 _ Hl0. simplify_eq. exists (l ++ [p]). split; [done|].
      apply Permutation_cons_append.
    + exists []. cbn. by rewrite app_nil_r.
  - assert (forall content, framed url w (with_file path content w)) as Hfile.
    { intros content. repeat split; try done.
      - intros other Hne. cbn. apply lookup_insert_ne. unfold file_backed in Hp. congruence.
      - intros Hm. unfold in_memory, file_backed in *. congruence.
      - intros l Hm. unfold in_memory, file_backed in *. congruence.
      - exists []. cbn. by rewrite app_nil_r. }
    destruct (disk w !! path) as [content|] eqn:Hc.
    + destruct proxy as [p|].
      * rewrite (switch_proxy_file path content) by done. apply Hfile.
      * rewrite (switch_proxy_file_none path content) by done. apply Hfile.
    + rewrite (switch_proxy_missing_file path) by done. apply framed_refl.
Qed.

Lemma framed_call_again (k : string -> Z -> M soup) (url : string)
    (proxy : option string) (delay : Z) (w : world) :
  (forall delay' w1, framed url w1 (snd (k url delay' w1))) ->
  framed url w (snd (call_again k url proxy delay w)).
Proof.
  intros Hk. destruct (USE_PROXY (self w)) eqn:Hu.
  - rewrite call_again_proxy by done.
    pose proof (framed_switch_proxy url proxy w) as Hs.
    destruct (switch_proxy proxy w) as [[[]| |] w1]; cbn in Hs; try exact Hs.
    pose proof (get_proxy_reads w1) as [Hg _].
    destruct (get_proxy w1) as [[q| |] w2]; cbn in Hg; subst w2; try exact Hs.
    eapply framed_trans; [exact Hs|apply Hk].
  - rewrite call_again_direct by done. apply Hk.
Qed.

Lemma framed_fetch (rs : list transport) (url : string) (delay : Z) (w : world) :
  framed url w (snd (fetch rs url delay w)).
Proof.
  revert delay w. induction rs as [|r rs IH]; intros delay w; rewrite fetch_unfold;
    unfold select_proxy.
  - destruct (USE_PROXY (self w)).
    + pose proof (get_proxy_reads w) as [Hg _].
      destruct (get_proxy w) as [[q| |] w1]; cbn in Hg; subst w1;
        try apply framed_refl. apply framed_attempted.
    + apply framed_attempted.
  - assert (forall proxy,
              framed url w
                (snd (if retried r
                      then call_again (fetch rs) url proxy delay (attempted url proxy delay w)
                      else (settle r, attempted url proxy delay w)))) as Hstep.
    { intros proxy. destruct (retried r); [|apply framed_attempted].
      eapply framed_trans; [apply framed_attempted|].
      apply framed_call_again. intros. apply IH. }
    destruct (USE_PROXY (self w)).
    + pose proof (get_proxy_reads w) as [Hg _].
      destruct (get_proxy w) as [[q| |] w1]; cbn in Hg; subst w1;
        try apply framed_refl. apply Hstep.
    + apply Hstep.
Qed.

Lemma switch_proxy_keeps_trace (proxy : option string) (w : world) :
  trace (snd (switch_proxy proxy w)) = trace w.
Proof.
  destruct (pool_backing w) as [Hm'|[path Hp']].
  - unfold in_memory in Hm'. unfold switch_proxy. run. rewrite Hm'.
    by destruct (PROXY_LIST (self w)) as [[|p l]|].
  - destruct (disk w !! path) as [content|] eqn:Hc.
    + destruct proxy as [p|].
      * by rewrite (switch_proxy_file path content).
      * by rewrite (switch_proxy_file_none path content).
    + by rewrite (switch_proxy_missing_file path).
Qed.

(** X1: [switch_proxy], whatever it is given and however it ends,
    changes no attribute but [PROXY_LIST], no file but the pool file
    and nothing of the history; on an in-memory pool it leaves the
    disk alone and a permutation of the list, on a file-backed pool it
    leaves [PROXY_LIST] alone. *)
Theorem switch_proxy_frame (proxy : option string) (w : world) :
  let w' := snd (switch_proxy proxy w) in
  same_settings (self w) (self w') /\
  other_files_kept w w' /\
  trace w' = trace w /\
  (in_memory w -> disk w' = disk w) /\
  (forall path, file_backed path w -> PROXY_LIST (self w') = PROXY_LIST (self w)) /\
  (forall l, in_memory w -> PROXY_LIST (self w) = Some l ->
             exists l', PROXY_LIST (self w') = Some l' /\ Permutation l l').
Proof.
  intros w'. destruct (framed_switch_proxy EmptyString proxy w)
    as (Hs & Ho & Hm & Hf & Hp & _).
  split; [exact Hs|]. split; [exact Ho|]. split; [|by repeat split].
  apply switch_proxy_keeps_trace.
Qed.

(** X2: however a [fetch] ends, it has changed no attribute but
    [PROXY_LIST] and no file but the pool file, it has kept the earlier
    history and added to it only sleeps each followed by a request for
    its own url, at most one more than the environment gave answers;
    with an in-memory pool it has left the disk alone and a
    permutation of the list. *)
Theorem fetch_frame (rs : list transport) (url : string) (delay : Z) (w : world) :
  let w' := snd (fetch rs url delay w) in
  same_settings (self w) (self w') /\
  other_files_kept w w' /\
  (in_memory w -> disk w' = disk w) /\
  (forall path, file_backed path w -> PROXY_LIST (self w') = PROXY_LIST (self w)) /\
  (forall l, in_memory w -> PROXY_LIST (self w) = Some l ->
             exists l', PROXY_LIST (self w') = Some l' /\ Permutation l l') /\
  exists l, trace w' = trace w ++ attempts_of url l /\ (length l <= S (length rs))%nat.
Proof.
  intros w'. destruct (framed_fetch rs url delay w) as (Hs & Ho & Hm & Hf & Hp & _).
  do 5 (split; [done|]). subst w'. clear.
  revert delay w. induction rs as [|r rs IH]; intros delay w; rewrite fetch_unfold.
  - unfold select_proxy. destruct (USE_PROXY (self w)).
    + pose proof (get_proxy_reads w) as [Hg _].
      destruct (get_proxy w) as [[q| |] w1]; cbn in Hg; subst w1; cbn.
      * exists [(delay, q)]. split; [done|cbn; lia].
      * exists []. cbn. split; [by rewrite app_nil_r|lia].
      * exists []. cbn. split; [by rewrite app_nil_r|lia].
    + exists [(delay, Some EmptyString)]. split; [done|cbn; lia].
  - assert (forall proxy, exists l,
              trace (snd (if retried r
                          then call_again (fetch rs) url proxy delay
                                 (attempted url proxy delay w)
                          else (settle r, attempted url proxy delay w)))
              = trace w ++ attempts_of url l /\ (length l <= S (S (length rs)))%nat)
      as Hstep.
    { intros proxy. destruct (retried r).
      - set (w0 := attempted url proxy delay w).
        assert (exists l, trace (snd (call_again (fetch rs) url proxy delay w0))
                          = trace w0 ++ attempts_of url l /\
                          (length l <= S (length rs))%nat) as (l & Hl & Hn).
        { destruct (USE_PROXY (self w0)) eqn:Hu.
          - rewrite call_again_proxy by done.
            pose proof (switch_proxy_keeps_trace proxy w0) as Ht.
            destruct (switch_proxy proxy w0) as [[[]| |] w1]; cbn in Ht.
            + pose proof (get_proxy_reads w1) as [Hg _].
              destruct (get_proxy w1) as [[q| |] w2]; cbn in Hg; subst w2.
              * destruct (IH 0 w1) as (l & Hl & Hn). exists l. by rewrite Hl, Ht.
              * exists []. cbn. rewrite app_nil_r. split; [done|lia].
              * exists []. cbn. rewrite app_nil_r. split; [done|lia].
            + exists []. cbn. rewrite app_nil_r. split; [done|lia].
            + exists []. cbn. rewrite app_nil_r. split; [done|lia].
          - rewrite call_again_direct by done. apply IH. }
        exists ((delay, proxy) :: l). rewrite Hl. subst w0. cbn.
        split; [by rewrite <- app_assoc|lia].
      - exists [(delay, proxy)]. split; [done|cbn; lia]. }
    unfold select_proxy. destruct (USE_PROXY (self w)).
    + pose proof (get_proxy_reads w) as [Hg _].
      destruct (get_proxy w) as [[q| |] w1]; cbn in Hg; subst w1.
      * apply Hstep.
      * exists []. cbn. split; [by rewrite app_nil_r|lia].
      * exists []. cbn. split; [by rewrite app_nil_r|lia].
    + apply Hstep.
Qed.

(** ** What a chain can end in *)

Lemma get_proxy_raises (w w' : world) (e : exception) :
  get_proxy w = (Raise e, w') -> caught e = false.
Proof.
  destruct (pool_backing w) as [Hm|[path Hp]].
  - unfold in_memory in Hm. unfold get_proxy. run. rewrite Hm.
    destruct (PROXY_LIST (self w)) as [[|p l]|]; intros [= <- _]; done.
  - destruct (disk w !! path) as [content|] eqn:Hc.
    + by rewrite (get_proxy_file path content).
    + rewrite (get_proxy_missing_file path) by done. by intros [= <- _].
Qed.

Lemma switch_proxy_raises (proxy : option string) (w w' : world) (e : exception) :
  switch_proxy proxy w = (Raise e, w') -> caught e = false.
Proof.
  destruct (pool_backing w) as [Hm|[path Hp]].
  - unfold in_memory in Hm. unfold switch_proxy. run. rewrite Hm.
    destruct (PROXY_LIST (self w)) as [[|p l]|]; intros [= <- _]; done.
  - destruct (disk w !! path) as [content|] eqn:Hc.
    + destruct proxy as [p|].
      * by rewrite (switch_proxy_file path content).
      * rewrite (switch_proxy_file_none path content) by done. by intros [= <- _].
    + rewrite (switch_proxy_missing_file path) by done. by intros [= <- _].
Qed.

Lemma call_again_raised (k : string -> Z -> M soup) (url : string)
    (proxy : option string) (delay : Z) (w w' : world) (e : exception) :
  call_again k url proxy delay w = (Raise e, w') ->
  caught e = false \/ exists delay' w1, k url delay' w1 = (Raise e, w').
Proof.
  destruct (USE_PROXY (self w)) eqn:Hu.
  - rewrite call_again_proxy by done.
    destruct (switch_proxy proxy w) as [[[]| |] w1] eqn:Hs.
    + destruct (get_proxy w1) as [[q| |] w2] eqn:Hg.
      * eauto.
      * intros [= <- <-]. left. by apply get_proxy_raises in Hg.
      * discriminate.
    + intros [= <- <-]. left. by apply switch_proxy_raises in Hs.
    + discriminate.
  - rewrite call_again_direct by done. eauto.
Qed.

Lemma settle_raised (r : transport) (e : exception) :
  retried r = false -> settle r = Raise e ->
  caught e = false /\
  (r = Raises e \/ exists status, r = Responds status (Broken e)).
Proof.
  destruct r as [e'|status [result|e']]; cbn; intros Hr [= <-].
  - split; [exact Hr|by left].
  - apply orb_false_iff in Hr as [_ Hr]. split; [exact Hr|right; eauto].
Qed.

(** X3: no exception of the six classes that [fetch] catches ever
    leaves [fetch]; and without a proxy, an exception that leaves it is
    one the transport raised. *)
Theorem fetch_raises_only_uncaught (rs : list transport) (url : string)
    (delay : Z) (w w' : world) (e : exception) :
  fetch rs url delay w = (Raise e, w') ->
  caught e = false /\
  (USE_PROXY (self w) = false ->
   In (Raises e) rs \/ exists status, In (Responds status (Broken e)) rs).
Proof.
  revert delay w. induction rs as [|r rs IH]; intros delay w; rewrite fetch_unfold;
    unfold select_proxy.
  - destruct (USE_PROXY (self w)); [|discriminate].
    destruct (get_proxy w) as [[q| |] w1] eqn:Hg; try discriminate.
    intros [= <- <-]. split; [by apply get_proxy_raises in Hg|done].
  - assert (forall proxy,
              (if retried r
               then call_again (fetch rs) url proxy delay (attempted url proxy delay w)
               else (settle r, attempted url proxy delay w)) = (Raise e, w') ->
              caught e = false /\
              (USE_PROXY (self w) = false ->
               In (Raises e) (r :: rs) \/
               exists status, In (Responds status (Broken e)) (r :: rs))) as Hstep.
    { intros proxy. destruct (retried r) eqn:Hr.
      - intros H. split.
        + apply call_again_raised in H as [H|(delay' & w1 & H)]; [exact H|].
          by apply IH in H as [H _].
        + intros Hu. rewrite call_again_direct in H by done.
          apply IH in H as [_ H]. destruct (H Hu) as [Hin|[status Hin]].
          * left. by right.
          * right. exists status. by right.
      - intros [= Hs _]. destruct (settle_raised r e Hr Hs) as [Hc [->|[status ->]]].
        + split; [exact Hc|]. intros _. left. by left.
        + split; [exact Hc|]. intros _. right. exists status. by left. }
    destruct (USE_PROXY (self w)).
    + destruct (get_proxy w) as [[q| |] w1] eqn:Hg; try discriminate.
      * pose proof (get_proxy_returns _ _ _ Hg) as ->. intros H.
        destruct (Hstep q H) as [Hc _]. split; [exact Hc|done].
      * intros [= <- <-]. split; [by apply get_proxy_raises in Hg|done].
    + apply Hstep.
Qed.

(** A proxy pool without entries raises [IndexError], which is not
    among the caught classes. *)
Lemma fetch_raises_only_uncaught_witness :
  caught IndexError = false /\
  (USE_PROXY (self (fresh (init 15 5 true None (Some []) false))) = false ->
   In (Raises IndexError) [Raises TimeoutError] \/
   exists status, In (Responds status (Broken IndexError)) [Raises TimeoutError]).
Proof.
  apply (fetch_raises_only_uncaught [Raises TimeoutError] "u" 0
           (fresh (init 15 5 true None (Some []) false))
           (fresh (init 15 5 true None (Some []) false)) IndexError).
  reflexivity.
Defined.

(** X4: with no proxy, or with an in-memory pool that is not empty,
    the outcome of [fetch] is decided by the environment alone: it is
    that of the first answer that is not retried, whatever the url,
    the delay and the pool; it is pending exactly when every answer
    of the script is retried. *)
Theorem fetch_verdict (rs : list transport) (url : string) (delay : Z) (w : world) :
  unfailing w ->
  fst (fetch rs url delay w) = verdict rs /\
  (fst (fetch rs url delay w) = Pending <-> Forall (fun r => retried r = true) rs).
Proof.
  intros Hw.
  assert (fst (fetch rs url delay w) = verdict rs) as Hv.
  { revert delay w Hw. induction rs as [|r rs IH]; intros delay w Hw;
      destruct (unfailing_select w Hw) as [proxy Hsel]; rewrite fetch_unfold, Hsel.
    - reflexivity.
    - cbn [verdict]. destruct (retried r); [|reflexivity].
      destruct (unfailing_call_again (fetch rs) url proxy delay
                  (attempted url proxy delay w)) as (delay' & w1 & Hw1 & ->).
      { by apply unfailing_attempted. }
      by apply IH. }
  split; [exact Hv|]. rewrite Hv. clear.
  induction rs as [|r rs IH]; cbn.
  - split; [constructor|done].
  - destruct (retried r) eqn:Hr.
    + rewrite IH. split; [by constructor|]. intros H. by apply Forall_cons in H as [_ H].
    + split.
      * by destruct r as [e|status [result|e]].
      * intros H. apply Forall_cons in H as [H _]. congruence.
Qed.

(** A timeout and a challenge page, then nothing more: still pending. *)
Lemma fetch_verdict_witness :
  fst (fetch [Raises TimeoutError; Responds 200 (Text challenge_page)]
         "https://www.hltv.org/matches" 0 (fresh init_default))
  = verdict [Raises TimeoutError; Responds 200 (Text challenge_page)].
Proof.
  refine (proj1 (fetch_verdict [Raises TimeoutError; Responds 200 (Text challenge_page)]
                   "https://www.hltv.org/matches" 0 (fresh init_default) _)).
  left. reflexivity.
Defined.

(** ** The schedule of a chain without a proxy *)

Lemma backoff_ramp (d max : Z) (n : nat) :
  d <= max ->
  backoff d max n = map (fun i => Z.min (d + Z.of_nat i) max) (seq 0 n).
Proof.
  revert d. induction n as [|n IH]; intros d Hd; [reflexivity|].
  cbn [backoff seq map]. f_equal; [lia|].
  rewrite <- seq_shift, map_map.
  unfold next_delay. destruct (Z.ltb_spec d max).
  - rewrite IH by lia. apply map_ext. intros i. lia.
  - rewrite IH by lia. apply map_ext. intros i. lia.
Qed.

Lemma backoff_bounds (d max : Z) (n : nat) :
  Forall (fun x => d <= x <= Z.max d max) (backoff d max n).
Proof.
  revert d. induction n as [|n IH]; intros d; cbn [backoff]; [constructor|].
  constructor; [lia|].
  eapply Forall_impl; [apply IH|]. intros x. cbn beta.
  unfold next_delay. destruct (Z.ltb_spec d max); lia.
Qed.

Lemma fetch_direct_world (rs : list transport) (url : string) (delay : Z) (w : world) :
  USE_PROXY (self w) = false ->
  snd (fetch rs url delay w)
  = mkWorld (self w) (disk w)
      (trace w ++ attempts_of url
                    (map (fun x => (x, Some EmptyString))
                       (backoff delay (MAX_DELAY (self w)) (tries rs)))).
Proof.
  revert delay w. induction rs as [|r rs IH]; intros delay w Hu;
    rewrite fetch_unfold; unfold select_proxy; rewrite Hu.
  - reflexivity.
  - cbn [tries]. destruct (retried r); [|reflexivity].
    rewrite call_again_direct by done. rewrite IH by done.
    cbn [self disk trace attempted backoff map attempts_of flat_map].
    by rewrite <- app_assoc.
Qed.

(** X5: without a proxy, a [fetch] leaves the object and the disk as
    they were and sends one request, with the empty proxy, for each
    leading retried answer and one more; the sleeps before them start
    at the given delay and step by [next_delay], so they never go
    below the given delay nor above the larger of it and [MAX_DELAY],
    and from a delay at or below [MAX_DELAY] the i-th sleep is the
    smaller of delay + i and [MAX_DELAY]. *)
Theorem fetch_direct_schedule (rs : list transport) (url : string) (delay : Z)
    (w : world) :
  USE_PROXY (self w) = false ->
  let w' := snd (fetch rs url delay w) in
  let sleeps := backoff delay (MAX_DELAY (self w)) (tries rs) in
  self w' = self w /\ disk w' = disk w /\
  trace w' = trace w ++ attempts_of url (map (fun x => (x, Some EmptyString)) sleeps) /\
  Forall (fun x => delay <= x <= Z.max delay (MAX_DELAY (self w))) sleeps /\
  (delay <= MAX_DELAY (self w) ->
   sleeps = map (fun i => Z.min (delay + Z.of_nat i) (MAX_DELAY (self w)))
              (seq 0 (tries rs))).
Proof.
  intros Hu w' sleeps. subst w'. rewrite fetch_direct_world by done.
  do 3 (split; [done|]). split; [apply backoff_bounds|].
  intros Hd. by apply backoff_ramp.
Qed.

(** Seventeen refusals from a ceiling of 15 seconds on. *)
Lemma fetch_direct_schedule_witness :
  trace (snd (fetch (repeat (Responds 403 (Broken OtherError)) 17) "u" 14
                (fresh init_default)))
  = [] ++ attempts_of "u"
            (map (fun x => (x, Some EmptyString))
               (backoff 14 (MAX_DELAY (self (fresh init_default)))
                  (tries (repeat (Responds 403 (Broken OtherError)) 17)))).
Proof.
  refine (proj1 (proj2 (proj2
    (fetch_direct_schedule (repeat (Responds 403 (Broken OtherError)) 17) "u" 14
       (fresh init_default) _)))).
  reflexivity.
Defined.

(** ** Round robin through the pool *)

Lemma fetch_retried_regular_file (r : transport) (rs : list transport)
    (url : string) (delay : Z) (path p : string) (rest : list string) (w : world) :
  retried r = true -> USE_PROXY (self w) = true ->
  file_backed path w -> disk w !! path = Some (pool_file (p :: rest)) ->
  Forall endpoint (p :: rest) -> ~ In p rest ->
  fetch (r :: rs) url delay w
  = fetch rs url 0
      (with_file path (pool_file (rest ++ [p])) (attempted url (Some p) delay w)).
Proof.
  intros Hr Hu Hp Hc Hl Hn.
  rewrite (fetch_retried r rs url delay (Some p)); [|exact Hr|].
  2:{ unfold select_proxy. rewrite Hu. by apply get_proxy_regular_file with path rest. }
  rewrite call_again_proxy by exact Hu.
  rewrite (switch_proxy_regular_file path [] rest p); [|done|done|done|by intros []|done].
  cbn [app].
  destruct (get_proxy_after_switch (Some p) (attempted url (Some p) delay w)
              (with_file path (pool_file (rest ++ [p]))
                 (attempted url (Some p) delay w))) as [q Hq].
  { apply (switch_proxy_regular_file path [] rest p); [done|done|done|by intros []|done]. }
  by rewrite Hq.
Qed.

Lemma through_zero (l : list string) :
  through 0 l = map (fun q => (0, Some q)) l.
Proof. by destruct l. Qed.

(** One retried attempt through the head of the pool. *)
Lemma retried_step_pool (r : transport) (rs : list transport) (url : string)
    (delay : Z) (p : string) (rest : list string) (w : world) :
  retried r = true -> USE_PROXY (self w) = true ->
  pool_holds (p :: rest) w ->
  exists w1,
    fetch (r :: rs) url delay w = fetch rs url 0 w1 /\
    pool_holds (rest ++ [p]) w1 /\
    USE_PROXY (self w1) = true /\
    trace w1 = trace w ++ [Sleep delay; Get url (Some p)].
Proof.
  intros Hr Hu [[Hm Hl]|(path & Hp & Hc & Hl & Hd)].
  - eexists. split; [by apply fetch_retried_in_memory|].
    repeat split; [by left|done].
  - apply NoDup_cons in Hd as [Hn Hd].
    eexists. split.
    { apply (fetch_retried_regular_file r rs url delay path p rest w); try done.
      by rewrite <- list_elem_of_In. }
    repeat split; [|done].
    right. exists path. split; [exact Hp|].
    split; [unfold with_file; cbn; by rewrite lookup_insert_eq|].
    assert (Permutation (p :: rest) (rest ++ [p])) as Hperm
      by apply Permutation_cons_append.
    split; [by rewrite <- Hperm|].
    rewrite <- Hperm. by apply NoDup_cons.
Qed.

(** X6: with proxy mode on and the pool [l1 ++ l2] (in memory, or in
    a regular pool file of distinct endpoints), as many retried
    attempts as [l1] has entries go through the entries of [l1] in
    their order, the first after the given delay and every later one
    at once, and leave the pool as [l2 ++ l1] for the rest of the
    chain; after as many failures as the pool has entries the pool is
    in its original order again. *)
Theorem fetch_round_robin (l1 l2 : list string) (pre rs : list transport)
    (url : string) (delay : Z) (w : world) :
  USE_PROXY (self w) = true ->
  pool_holds (l1 ++ l2) w ->
  Forall (fun r => retried r = true) pre ->
  length pre = length l1 ->
  exists w1,
    fetch (pre ++ rs) url delay w
    = fetch rs url (match l1 with [] => delay | _ :: _ => 0 end) w1 /\
    pool_holds (l2 ++ l1) w1 /\
    USE_PROXY (self w1) = true /\
    trace w1 = trace w ++ attempts_of url (through delay l1).
Proof.
  revert l2 pre delay w. induction l1 as [|a l1 IH]; intros l2 pre delay w Hu Hpool Hpre Hlen.
  - destruct pre; [|done]. exists w. cbn. rewrite !app_nil_r. by repeat split.
  - destruct pre as [|r pre]; [done|]. cbn in Hlen. injection Hlen as Hlen.
    apply Forall_cons in Hpre as [Hr Hpre].
    destruct (retried_step_pool r (pre ++ rs) url delay a (l1 ++ l2) w Hr Hu Hpool)
      as (w0 & Hstep & Hpool0 & Hu0 & Ht0).
    rewrite <- app_assoc in Hpool0.
    destruct (IH (l2 ++ [a]) pre 0 w0 Hu0 Hpool0 Hpre Hlen)
      as (w1 & Hgo & Hpool1 & Hu1 & Ht1).
    exists w1. split; [|split; [|split]].
    + cbn [app]. rewrite Hstep, Hgo. by destruct l1.
    + by rewrite <- app_assoc in Hpool1.
    + exact Hu1.
    + rewrite Ht1, Ht0, through_zero. cbn. by rewrite <- app_assoc.
Qed.

(** Three failures on the in-memory pool [P1; P2; P3]. *)
Lemma fetch_round_robin_witness :
  exists w1,
    fetch ([Raises TimeoutError; Responds 403 (Text plain_page); Responds 404 (Text plain_page)]
           ++ [Responds 200 (Text plain_page)]) "u" 7
      (fresh (init 15 5 true None (Some (["P1"; "P2"; "P3"] ++ [])) false))
    = fetch [Responds 200 (Text plain_page)] "u" 0 w1 /\
    pool_holds ([] ++ ["P1"; "P2"; "P3"]) w1 /\
    USE_PROXY (self w1) = true /\
    trace w1 = [] ++ attempts_of "u" (through 7 ["P1"; "P2"; "P3"]).
Proof.
  apply (fetch_round_robin ["P1"; "P2"; "P3"] []
           [Raises TimeoutError; Responds 403 (Text plain_page); Responds 404 (Text plain_page)]
           [Responds 200 (Text plain_page)] "u" 7
           (fresh (init 15 5 true None (Some (["P1"; "P2"; "P3"] ++ [])) false))).
  - reflexivity.
  - left. split; reflexivity.
  - repeat constructor.
  - reflexivity.
Defined.

(** ** Pools that stop the chain *)

(** X7: with proxy mode on, a pool that cannot give a head stops
    [fetch] before it sleeps or sends anything, whatever the
    environment would answer: [IndexError] on an empty [PROXY_LIST],
    [TypeError] when [PROXY_LIST] is [None], [FileNotFoundError] when
    the pool file does not exist.  The world is left as it was. *)
Theorem fetch_fatal_pool (rs : list transport) (url : string) (delay : Z) (w : world) :
  USE_PROXY (self w) = true ->
  (in_memory w -> PROXY_LIST (self w) = Some [] ->
   fetch rs url delay w = (Raise IndexError, w)) /\
  (in_memory w -> PROXY_LIST (self w) = None ->
   fetch rs url delay w = (Raise TypeError, w)) /\
  (forall path, file_backed path w -> disk w !! path = None ->
   fetch rs url delay w = (Raise FileNotFoundError, w)).
Proof.
  intros Hu. repeat split.
  - intros Hm Hl. by apply fetch_empty_in_memory_pool.
  - intros Hm Hl. rewrite fetch_unfold. unfold select_proxy. rewrite Hu.
    unfold in_memory in Hm. unfold get_proxy. run. by rewrite Hm, Hl.
  - intros path Hp Hc. rewrite fetch_unfold. unfold select_proxy. rewrite Hu.
    by rewrite (get_proxy_missing_file path).
Qed.

(** Proxy mode switched on without any pool. *)
Lemma fetch_fatal_pool_witness :
  fetch [Responds 200 (Text plain_page)] "u" 0 (fresh (init 15 5 true None None false))
  = (Raise TypeError, fresh (init 15 5 true None None false)).
Proof.
  refine (proj1 (proj2 (fetch_fatal_pool [Responds 200 (Text plain_page)] "u" 0
                          (fresh (init 15 5 true None None false)) _)) _ _);
    reflexivity.
Defined.

(** X8: with proxy mode on and a pool file whose first line is blank
    (an empty file, or white space only before the first newline),
    [fetch] sends its request without a proxy; when that attempt is
    retried, the rotation raises [TypeError] out of [fetch], with that
    single request added to the history; when it is not retried, the
    chain ends as the answer decides. *)
Theorem fetch_blank_first_line (r : transport) (rs : list transport)
    (url path content : string) (delay : Z) (w : world) :
  USE_PROXY (self w) = true ->
  file_backed path w ->
  disk w !! path = Some content ->
  PyStr.strip (TextFile.readline content) = EmptyString ->
  get_proxy w = (Return None, w) /\
  (retried r = true ->
   fst (fetch (r :: rs) url delay w) = Raise TypeError /\
   trace (snd (fetch (r :: rs) url delay w)) = trace w ++ [Sleep delay; Get url None]) /\
  (retried r = false ->
   fetch (r :: rs) url delay w = (settle r, attempted url None delay w)).
Proof.
  intros Hu Hp Hc Hb.
  assert (get_proxy w = (Return None, w)) as Hg.
  { rewrite (get_proxy_file path content) by done. cbn zeta. by rewrite Hb. }
  split; [exact Hg|]. split.
  - intros Hr. rewrite (fetch_retried r rs url delay None); [|exact Hr|].
    2:{ unfold select_proxy. by rewrite Hu. }
    rewrite call_again_proxy by exact Hu.
    by rewrite (switch_proxy_file_none path content).
  - intros Hr. apply fetch_settled; [exact Hr|].
    unfold select_proxy. by rewrite Hu.
Qed.

(** A pool file that starts with an empty line before its endpoint. *)
Lemma fetch_blank_first_line_witness :
  get_proxy
    (mkWorld (init 15 5 true (Some "proxies.txt") None false)
       {[ "proxies.txt" := PyStr.nl +:+ pool_file ["P1"] ]} [])
  = (Return None,
     mkWorld (init 15 5 true (Some "proxies.txt") None false)
       {[ "proxies.txt" := PyStr.nl +:+ pool_file ["P1"] ]} []).
Proof.
  refine (proj1 (fetch_blank_first_line (Raises TimeoutError) [] "u" "proxies.txt"
                   (PyStr.nl +:+ pool_file ["P1"]) 0
                   (mkWorld (init 15 5 true (Some "proxies.txt") None false)
                      {[ "proxies.txt" := PyStr.nl +:+ pool_file ["P1"] ]} [])
                   _ _ _ _)); reflexivity.
Defined.

(** ** What the pool file gives and takes *)

Lemma lstrip_head (s : string) (c : ascii) (t : string) :
  PyStr.lstrip s = String c t -> PyStr.isspace c = false.
Proof.
  induction s as [|x s IH]; cbn; [discriminate|].
  destruct (PyStr.isspace x) eqn:Hx; [exact IH|]. intros [= <- _]. exact Hx.
Qed.

Lemma rstrip_idempotent (s : string) : PyStr.rstrip (PyStr.rstrip s) = PyStr.rstrip s.
Proof.
  induction s as [|x s IH]; [reflexivity|].
  cbn [PyStr.rstrip]. cbv zeta.
  destruct (PyStr.isspace x && PyStr.is_empty (PyStr.rstrip s)) eqn:Hc; [reflexivity|].
  cbn [PyStr.rstrip]. cbv zeta. by rewrite IH, Hc.
Qed.

Lemma strip_idempotent (s : string) : PyStr.strip (PyStr.strip s) = PyStr.strip s.
Proof.
  unfold PyStr.strip.
  destruct (PyStr.lstrip s) as [|c t] eqn:Hl; [reflexivity|].
  pose proof (lstrip_head s c t Hl) as Hc.
  assert (PyStr.rstrip (String c t) = String c (PyStr.rstrip t)) as Hr.
  { cbn [PyStr.rstrip]. cbv zeta. by rewrite Hc. }
  rewrite Hr. cbn [PyStr.lstrip]. rewrite Hc. rewrite <- Hr.
  apply rstrip_idempotent.
Qed.

(** X9: [get_proxy] never changes the world, however it ends; and a
    proxy it reads from the pool file is the first line of the file
    without its surrounding white space: it is never empty and
    stripping it again changes nothing. *)
Theorem get_proxy_reads_stripped_head (w : world) :
  snd (get_proxy w) = w /\
  (forall path content p,
     file_backed path w -> disk w !! path = Some content ->
     fst (get_proxy w) = Return (Some p) ->
     p = PyStr.strip (TextFile.readline content) /\
     p <> EmptyString /\ PyStr.strip p = p).
Proof.
  split; [apply get_proxy_reads|].
  intros path content p Hp Hc. rewrite (get_proxy_file path content) by done.
  cbn [fst]. cbv zeta.
  destruct (PyStr.truthy (PyStr.strip (TextFile.readline content))) eqn:Ht; [|discriminate].
  intros [= <-]. split; [reflexivity|]. split.
  - intros He. by rewrite He in Ht.
  - apply strip_idempotent.
Qed.

(** A first line with blanks around the endpoint. *)
Lemma get_proxy_reads_stripped_head_witness :
  "10.0.0.1:80" = PyStr.strip (TextFile.readline ("  10.0.0.1:80 " +:+ PyStr.nl +:+ "P2")) /\
  "10.0.0.1:80" <> EmptyString /\ PyStr.strip "10.0.0.1:80" = "10.0.0.1:80".
Proof.
  refine (proj2 (get_proxy_reads_stripped_head
                   (mkWorld (init 15 5 true (Some "proxies.txt") None false)
                      {[ "proxies.txt" := "  10.0.0.1:80 " +:+ PyStr.nl +:+ "P2" ]} []))
            "proxies.txt" ("  10.0.0.1:80 " +:+ PyStr.nl +:+ "P2") "10.0.0.1:80" _ _ _);
    reflexivity.
Defined.

Lemma drop_beyond (n : nat) (s : string) :
  (String.length s <= n)%nat -> PyStr.drop n s = EmptyString.
Proof.
  revert n. induction s as [|x s IH]; intros n Hn.
  - by destruct n.
  - destruct n as [|n]; cbn in Hn; [lia|]. cbn. apply IH. lia.
Qed.

(** X10: rotating a regular pool file on an endpoint that is not among
    its lines adds the endpoint as a new last line and keeps every line
    that was there: the pool grows by one. *)
Theorem switch_proxy_appends_stranger (path : string) (l : list string)
    (e : string) (w : world) :
  file_backed path w ->
  disk w !! path = Some (pool_file l) ->
  Forall endpoint l ->
  ~ In e l ->
  switch_proxy (Some e) w = (Return tt, with_file path (pool_file (l ++ [e])) w).
Proof.
  intros Hp Hc Hl Hn. rewrite (switch_proxy_pool_file path l e w Hp Hc Hl).
  rewrite filter_absent by exact Hn. unfold TextFile.overwrite.
  rewrite drop_beyond; [by rewrite append_empty|].
  rewrite pool_file_app, length_append. lia.
Qed.

(** The pool file [P1], [P2] rotated on [P9]. *)
Lemma switch_proxy_appends_stranger_witness :
  switch_proxy (Some "P9")
    (mkWorld (init 15 5 true (Some "proxies.txt") None false)
       {[ "proxies.txt" := pool_file ["P1"; "P2"] ]} [])
  = (Return tt,
     with_file "proxies.txt" (pool_file (["P1"; "P2"] ++ ["P9"]))
       (mkWorld (init 15 5 true (Some "proxies.txt") None false)
          {[ "proxies.txt" := pool_file ["P1"; "P2"] ]} [])).
Proof.
  apply (switch_proxy_appends_stranger "proxies.txt" ["P1"; "P2"] "P9").
  - reflexivity.
  - reflexivity.
  - repeat constructor; discriminate.
  - intros [H|[H|[]]]; discriminate.
Defined.

(** ** Reconfiguration, again *)

(** X11: calling [config] twice with the same arguments is the same
    as calling it once. *)
Theorem config_idempotent max_delay tmo use_proxy proxy_file_path proxy_list debug
    (h : Hltv) :
  config max_delay tmo use_proxy proxy_file_path proxy_list debug
    (config max_delay tmo use_proxy proxy_file_path proxy_list debug h)
  = config max_delay tmo use_proxy proxy_file_path proxy_list debug h.
Proof.
  unfold config.
  destruct (Truthy.int max_delay), (Truthy.int tmo), (Truthy.boolean use_proxy),
    (Truthy.str proxy_file_path), (Truthy.list proxy_list), (Truthy.boolean debug);
    reflexivity.
Qed.

Lemma truthy_boolean_true (x : option bool) (v : bool) :
  Truthy.boolean x = Some v -> v = true.
Proof. destruct x as [[]|]; cbn; congruence. Qed.

Lemma truthy_int_nonzero (x : option Z) (v : Z) :
  Truthy.int x = Some v -> v <> 0.
Proof.
  destruct x as [z|]; cbn; [|discriminate].
  destruct (Z.eqb_spec z 0); [discriminate|congruence].
Qed.

Lemma truthy_list_nonempty {A} (x : option (list A)) (v : list A) :
  Truthy.list x = Some v -> v <> [].
Proof. destruct x as [[|a l]|]; cbn; congruence. Qed.

(** X12: [config] cannot switch anything off: proxy mode and debug
    mode stay on once they are on, a delay ceiling or a timeout that is
    not zero is never replaced by zero, and a pool list is never
    replaced by an empty list or by [None]. *)
Theorem config_never_clears max_delay tmo use_proxy proxy_file_path proxy_list debug
    (h : Hltv) :
  let h' := config max_delay tmo use_proxy proxy_file_path proxy_list debug h in
  (USE_PROXY h = true -> USE_PROXY h' = true) /\
  (DEBUG h = true -> DEBUG h' = true) /\
  (MAX_DELAY h <> 0 -> MAX_DELAY h' <> 0) /\
  (timeout h <> 0 -> timeout h' <> 0) /\
  (PROXY_LIST h' = Some [] -> PROXY_LIST h = Some []) /\
  (PROXY_LIST h' = None -> PROXY_LIST h = None).
Proof.
  intros h'. destruct (config_fields max_delay tmo use_proxy proxy_file_path
                         proxy_list debug h) as (Hm & Ht & Hu & Hl & Hd & _).
  fold h' in Hm, Ht, Hu, Hl, Hd. rewrite Hm, Ht, Hu, Hl, Hd.
  repeat split.
  - destruct (Truthy.boolean use_proxy) as [v|] eqn:E; cbn; [|done].
    intros _. by apply truthy_boolean_true in E.
  - destruct (Truthy.boolean debug) as [v|] eqn:E; cbn; [|done].
    intros _. by apply truthy_boolean_true in E.
  - destruct (Truthy.int max_delay) as [v|] eqn:E; cbn; [|done].
    intros _. by apply truthy_int_nonzero in E.
  - destruct (Truthy.int tmo) as [v|] eqn:E; cbn; [|done].
    intros _. by apply truthy_int_nonzero in E.
  - destruct (Truthy.list proxy_list) as [v|] eqn:E; [|done].
    intros [= ->]. by apply truthy_list_nonempty in E.
  - destruct (Truthy.list proxy_list) as [v|] eqn:E; [discriminate|done].
Qed.

(** [config(use_proxy=False, debug=False, max_delay=0)] on an object
    with proxy mode on. *)
Lemma config_never_clears_witness :
  USE_PROXY (config (Some 0) None (Some false) None None (Some false)
               (init 15 5 true None (Some ["P1"]) true)) = true.
Proof.
  refine (proj1 (config_never_clears (Some 0) None (Some false) None None (Some false)
                   (init 15 5 true None (Some ["P1"]) true)) _).
  reflexivity.
Defined.

(** X13: switching proxy mode on through [config] on an object that
    has neither a pool file nor a pool list makes every [fetch] raise
    [TypeError] before it sends anything, whatever else the call
    supplies apart from a list; a file path supplied in the same call
    does not help. *)
Theorem config_proxy_without_pool max_delay tmo proxy_file_path debug (h : Hltv)
    (files : gmap string string) (tr : list event)
    (rs : list transport) (url : string) (delay : Z) :
  Truthy.str (PROXY_PATH h) = None ->
  PROXY_LIST h = None ->
  let w := mkWorld (config max_delay tmo (Some true) proxy_file_path None debug h)
             files tr in
  fetch rs url delay w = (Raise TypeError, w).
Proof.
  intros Hp Hl w.
  destruct (config_fields max_delay tmo (Some true) proxy_file_path None debug h)
    as (_ & _ & Hu & Hl' & _ & _ & Hp').
  cbn in Hu, Hl'.
  rewrite fetch_unfold. unfold select_proxy. subst w. cbn [self]. rewrite Hu.
  unfold get_proxy. run. by rewrite Hp', Hp, Hl', Hl.
Qed.

(** A default object, then [config(use_proxy=True, proxy_file_path=...)]. *)
Lemma config_proxy_without_pool_witness :
  fetch [Responds 200 (Text plain_page)] "u" 0
    (mkWorld (config None None (Some true) (Some "proxies.txt") None None init_default)
       {[ "proxies.txt" := pool_file ["P1"] ]} [])
  = (Raise TypeError,
     mkWorld (config None None (Some true) (Some "proxies.txt") None None init_default)
       {[ "proxies.txt" := pool_file ["P1"] ]} []).
Proof.
  apply (config_proxy_without_pool None None (Some "proxies.txt") None init_default
           {[ "proxies.txt" := pool_file ["P1"] ]} []
           [Responds 200 (Text plain_page)] "u" 0); reflexivity.
Defined.

(** ** The first marker decides *)

(** X14: the detector judges a document by the first element that
    carries the id and by nothing else: what follows a part that holds
    such an element never changes the answer, a part that holds no
    such element is passed over, and an element without the id is
    looked through. *)
Theorem cloudflare_check_first_marker (a b : soup) (name : string)
    (attrs : gmap string string) :
  ((exists n, In n (Soup.elements a) /\ carries_id "challenge-error-title" n = true) ->
   cloudflare_check (a ++ b) = cloudflare_check a) /\
  (Forall (fun n => carries_id "challenge-error-title" n = false) (Soup.elements a) ->
   cloudflare_check (a ++ b) = cloudflare_check b) /\
  (Soup.has_id "challenge-error-title" attrs = false ->
   cloudflare_check [Tag name attrs a] = cloudflare_check a).
Proof.
  unfold cloudflare_check, f. rewrite !find_first.
  assert (Soup.elements (a ++ b) = Soup.elements a ++ Soup.elements b) as ->.
  { unfold Soup.elements. by rewrite flat_map_app. }
  rewrite find_app.
  repeat split.
  - intros (n & Hin & Hn).
    destruct (List.find _ (Soup.elements a)) as [m|] eqn:Hf; [reflexivity|].
    exfalso. pose proof (List.find_none _ _ Hf n Hin) as Hnone. congruence.
  - intros Hall.
    destruct (List.find _ (Soup.elements a)) as [m|] eqn:Hf; [|reflexivity].
    exfalso. apply List.find_some in Hf as [Hin Hm].
    rewrite Forall_forall in Hall. rewrite <- list_elem_of_In in Hin.
    specialize (Hall m Hin). cbn beta in Hall. congruence.
  - intros Hid. unfold Soup.elements. cbn [flat_map Soup.elements_in].
    rewrite app_nil_r. cbn [List.find carries_id]. by rewrite Hid.
Qed.

(** A page whose first marked element holds another text, followed by
    the challenge page. *)
Lemma cloudflare_check_first_marker_witness :
  cloudflare_check (lookalike_page ++ challenge_page) = cloudflare_check lookalike_page.
Proof.
  refine (proj1 (cloudflare_check_first_marker lookalike_page challenge_page
                   EmptyString ∅) _).
  eexists. split; [left; reflexivity|reflexivity].
Defined.

(** ** Dates of the event pages *)

Ltac month_at k := exists k; split; [lia|split; reflexivity].

Lemma month_lookup (m v : string) :
  Dates.month_abbreviations !! m = Some v <->
  exists n, (n < 12)%nat /\ nth_error Dates.months n = Some m /\ v = Dates.decimal (S n).
Proof.
  split.
  - intros H. apply elem_of_list_to_map_2 in H.
    repeat (apply elem_of_cons in H as [H|H];
            [injection H as -> ->;
             first [ month_at 0%nat | month_at 1%nat | month_at 2%nat | month_at 3%nat
                   | month_at 4%nat | month_at 5%nat | month_at 6%nat | month_at 7%nat
                   | month_at 8%nat | month_at 9%nat | month_at 10%nat | month_at 11%nat ]|]).
    by apply elem_of_nil in H.
  - intros (n & Hn & Hm & ->).
    do 12 (destruct n as [|n]; [injection Hm as <-; reflexivity|]). lia.
Qed.

Lemma month_unknown (m : string) :
  Dates.month_abbreviations !! m = None <-> ~ In m Dates.months.
Proof.
  split.
  - intros H Hin. apply In_nth_error in Hin as [n Hn].
    assert (n < length Dates.months)%nat as Hlt.
    { apply nth_error_Some. by rewrite Hn. }
    cbn in Hlt.
    assert (Dates.month_abbreviations !! m = Some (Dates.decimal (S n))) as E.
    { apply month_lookup. eauto. }
    congruence.
  - intros H. destruct (Dates.month_abbreviations !! m) as [v|] eqn:E; [|done].
    apply month_lookup in E as (n & _ & Hn & _). destruct H.
    by apply nth_error_In in Hn.
Qed.

Lemma take_nothing (s : string) : Dates.take 0 s = EmptyString.
Proof. by destruct s. Qed.

Lemma take_append (a b : string) : Dates.take (String.length a) (a +:+ b) = a.
Proof.
  induction a as [|x a IH]; [apply take_nothing|].
  rewrite append_cons. cbn [String.length Dates.take]. by rewrite IH.
Qed.

(** X15: [normalize_date] answers exactly when [parts] starts with one
    of the twelve month abbreviations followed by a day token; the
    answer is the day token without its last two characters, a hyphen,
    and the number of the month in the year, 1 to 12, in decimal;
    further parts are ignored, the ordinal suffix is cut off, and a day
    token of at most two characters leaves the day empty. *)
Theorem normalize_date_answers (parts : list string) (s : string) :
  (Dates.normalize_date parts = inr s <->
   exists n m d rest,
     (n < 12)%nat /\ nth_error Dates.months n = Some m /\
     parts = m :: d :: rest /\
     s = Dates.without_last_two d +:+ "-" +:+ Dates.decimal (S n)) /\
  (forall day suffix, String.length suffix = 2%nat ->
     Dates.without_last_two (day +:+ suffix) = day) /\
  (forall d, (String.length d <= 2)%nat -> Dates.without_last_two d = EmptyString).
Proof.
  split; [|split].
  - split.
    + destruct parts as [|m [|d rest]]; unfold Dates.normalize_date; try discriminate.
      * by destruct (Dates.month_abbreviations !! m).
      * destruct (Dates.month_abbreviations !! m) as [v|] eqn:E; [|discriminate].
        intros [= <-]. apply month_lookup in E as (n & Hn & Hm & ->).
        exists n, m, d, rest. by repeat split.
    + intros (n & m & d & rest & Hn & Hm & -> & ->).
      assert (Dates.month_abbreviations !! m = Some (Dates.decimal (S n))) as E.
      { apply month_lookup. eauto. }
      unfold Dates.normalize_date. by rewrite E.
  - intros day suffix Hs. unfold Dates.without_last_two.
    rewrite length_append, Hs.
    replace (String.length day + 2 - 2)%nat with (String.length day) by lia.
    apply take_append.
  - intros d Hd. unfold Dates.without_last_two.
    replace (String.length d - 2)%nat with 0%nat by lia. apply take_nothing.
Qed.

(** The start of an event as the events page writes it. *)
Lemma normalize_date_answers_witness :
  Dates.normalize_date ["Mar"; "17th"; "2024"] = inr ("17-3").
Proof.
  apply (proj1 (normalize_date_answers ["Mar"; "17th"; "2024"] "17-3")).
  exists 2%nat, "Mar", "17th", ["2024"]. repeat split. lia.
Defined.

(** X16: [normalize_date] fails in two ways, and the month decides
    first: without parts, or with a known month and no day token, it
    raises [IndexError]; with a first part that is not one of the
    twelve abbreviations it raises [KeyError] on that part, whether a
    day token follows or not. *)
Theorem normalize_date_fails (parts : list string) :
  (Dates.normalize_date parts = inl Dates.IndexError <->
   parts = [] \/ exists m, parts = [m] /\ In m Dates.months) /\
  (forall k, Dates.normalize_date parts = inl (Dates.KeyError k) <->
             exists rest, parts = k :: rest /\ ~ In k Dates.months).
Proof.
  split.
  - split.
    + destruct parts as [|m [|d rest]]; unfold Dates.normalize_date; [by left| |].
      * destruct (Dates.month_abbreviations !! m) as [v|] eqn:E; [|discriminate].
        intros _. right. exists m. split; [done|].
        apply month_lookup in E as (n & _ & Hn & _). by apply nth_error_In in Hn.
      * by destruct (Dates.month_abbreviations !! m).
    + intros [->|(m & -> & Hin)]; [reflexivity|]. unfold Dates.normalize_date.
      destruct (Dates.month_abbreviations !! m) as [v|] eqn:E; [reflexivity|].
      by apply month_unknown in E.
  - intros k. split.
    + destruct parts as [|m rest]; unfold Dates.normalize_date; [discriminate|].
      destruct (Dates.month_abbreviations !! m) as [v|] eqn:E.
      * by destruct rest.
      * intros [= <-]. exists rest. split; [done|]. by apply month_unknown.
    + intros (rest & -> & Hk). apply month_unknown in Hk.
      unfold Dates.normalize_date. by rewrite Hk.
Qed.

(** A month written out in full, with and without a day. *)
Lemma normalize_date_fails_witness :
  Dates.normalize_date ["March"] = inl (Dates.KeyError "March").
Proof.
  apply (proj2 (normalize_date_fails ["March"]) "March").
  exists []. split; [reflexivity|].
  intros H. repeat (destruct H as [H|H]; [discriminate|]). exact H.
Defined.

Lemma hyphen_split (a b x y : string) :
  Dates.hyphen_free a = true -> Dates.hyphen_free b = true ->
  a +:+ "-" +:+ x = b +:+ "-" +:+ y -> a = b /\ x = y.
Proof.
  assert (forall z, "-" +:+ z = String "-" z) as Hh by reflexivity.
  assert (forall z, EmptyString +:+ z = z) as He by reflexivity.
  rewrite !Hh. clear Hh.
  revert b. induction a as [|c a IH]; intros [|c' b] Ha Hb;
    rewrite ?He, ?append_cons.
  - intros H. by injection H as ->.
  - cbn in Hb. intros H. injection H as <- _.
    by rewrite Ascii.eqb_refl in Hb.
  - cbn in Ha. intros H. injection H as -> _.
    by rewrite Ascii.eqb_refl in Ha.
  - cbn in Ha, Hb.
    apply andb_true_iff in Ha as [_ Ha]. apply andb_true_iff in Hb as [_ Hb].
    intros H. injection H as -> H. by destruct (IH b Ha Hb H) as [-> ->].
Qed.

Lemma decimal_month_injective (n1 n2 : nat) :
  (n1 < 12)%nat -> (n2 < 12)%nat ->
  Dates.decimal (S n1) = Dates.decimal (S n2) -> n1 = n2.
Proof.
  intros H1 H2.
  do 12 (destruct n1 as [|n1]; [do 12 (destruct n2 as [|n2]; [by vm_compute|]); lia|]).
  lia.
Qed.

(** X17: on day tokens whose day holds no hyphen, [normalize_date]
    keeps dates apart: two inputs with the same answer have the same
    month and the same day. *)
Theorem normalize_date_injective (m1 d1 m2 d2 : string) (rest1 rest2 : list string)
    (s : string) :
  Dates.hyphen_free (Dates.without_last_two d1) = true ->
  Dates.hyphen_free (Dates.without_last_two d2) = true ->
  Dates.normalize_date (m1 :: d1 :: rest1) = inr s ->
  Dates.normalize_date (m2 :: d2 :: rest2) = inr s ->
  m1 = m2 /\ Dates.without_last_two d1 = Dates.without_last_two d2.
Proof.
  intros Hd1 Hd2 H1 H2. unfold Dates.normalize_date in H1, H2.
  destruct (Dates.month_abbreviations !! m1) as [v1|] eqn:E1; [|discriminate].
  destruct (Dates.month_abbreviations !! m2) as [v2|] eqn:E2; [|discriminate].
  injection H1 as <-. injection H2 as H2.
  apply hyphen_split in H2 as [Hd Hv]; [|done..].
  apply month_lookup in E1 as (n1 & Hn1 & Hm1 & ->).
  apply month_lookup in E2 as (n2 & Hn2 & Hm2 & ->).
  apply decimal_month_injective in Hv; [|done..]. subst n2.
  split; [congruence|done].
Qed.

(** The same day of March, once with and once without a year. *)
Lemma normalize_date_injective_witness :
  "Mar" = "Mar" /\ Dates.without_last_two "17th" = Dates.without_last_two "17th".
Proof.
  apply (normalize_date_injective "Mar" "17th" "Mar" "17th" ["2024"] [] "17-3");
    reflexivity.
Defined.

(** ** Match lists of the match pages *)

Lemma pair_teams_two (a b : string) (l : list string) :
  Matches.pair_teams (a :: b :: l) = (a, b) :: Matches.pair_teams l.
Proof. unfold Matches.pair_teams. by destruct l. Qed.

(** Induction two entries at a time. *)
Lemma list_pair_induction {A} (P : list A -> Prop) :
  P [] -> (forall a, P [a]) -> (forall a b l, P l -> P (a :: b :: l)) ->
  forall l, P l.
Proof.
  intros H0 H1 H2 l.
  assert (P l /\ forall a, P (a :: l)) as [H _]; [|exact H].
  induction l as [|x l [IH1 IH2]]; [by split|].
  split; [apply IH2|]. intros a. by apply H2.
Qed.

Lemma pair_teams_length (l : list string) :
  length (Matches.pair_teams l) = (length l / 2)%nat.
Proof.
  induction l as [| a | a b l IH] using list_pair_induction; [reflexivity..|].
  rewrite pair_teams_two. cbn [length].
  change (S (S (length l))) with (1 * 2 + length l)%nat.
  rewrite Nat.div_add_l by lia. rewrite IH. lia.
Qed.

(** X18: the pairing of the team texts on the match pages takes the
    texts two by two in their order, without overlap: there are half
    as many pairs as texts (rounded down), the pairs laid end to end
    are the texts up to the last even position, and a text left over
    at an odd end is dropped. *)
Theorem pair_teams_consecutive (l : list string) :
  length (Matches.pair_teams l) = (length l / 2)%nat /\
  flat_map (fun p => [fst p; snd p]) (Matches.pair_teams l)
  = firstn (2 * (length l / 2)) l /\
  (Nat.even (length l) = true ->
   flat_map (fun p => [fst p; snd p]) (Matches.pair_teams l) = l) /\
  (forall x, Nat.even (length l) = true ->
             Matches.pair_teams (l ++ [x]) = Matches.pair_teams l).
Proof.
  induction l as [| a | a b l (IH1 & IH2 & IH3 & IH4)] using list_pair_induction.
  - repeat split; reflexivity.
  - repeat split; try reflexivity; discriminate.
  - rewrite pair_teams_two.
    assert (length (a :: b :: l) / 2 = S (length l / 2))%nat as Hdiv.
    { cbn [length]. change (S (S (length l))) with (1 * 2 + length l)%nat.
      rewrite Nat.div_add_l by lia. lia. }
    rewrite Hdiv. repeat split.
    + cbn. by rewrite IH1.
    + cbn [flat_map fst snd app].
      replace (2 * S (length l / 2))%nat with (S (S (2 * (length l / 2)))) by lia.
      cbn [firstn]. by rewrite IH2.
    + intros He. cbn [flat_map fst snd app]. rewrite IH3; [done|]. exact He.
    + intros x He. cbn [app]. rewrite !pair_teams_two. rewrite IH4; [done|]. exact He.
Qed.

Lemma zip_records_length (ms : list (string * string)) (mps : list (list string))
    (sts : list (option string)) :
  length (Matches.zip_records ms mps sts)
  = Nat.min (length ms) (Nat.min (length mps) (length sts)).
Proof.
  revert mps sts. induction ms as [|m ms IH]; intros [|mp mps] [|st sts]; cbn;
    try reflexivity. by rewrite IH.
Qed.

Lemma zip_records_lookup (ms : list (string * string)) (mps : list (list string))
    (sts : list (option string)) (i : nat) (x : Matches.live_match) :
  nth_error (Matches.zip_records ms mps sts) i = Some x ->
  nth_error ms i = Some (Matches.teams x) /\
  nth_error mps i = Some (Matches.maps x) /\
  nth_error sts i = Some (Matches.stars x).
Proof.
  revert mps sts i. induction ms as [|m ms IH]; intros [|mp mps] [|st sts] i;
    try (by destruct i).
  destruct i as [|i]; cbn.
  - by intros [= <-].
  - apply IH.
Qed.

Lemma split_nonempty (sep : ascii) (s : string) : Matches.split sep s <> [].
Proof.
  destruct s as [|c s]; [done|]. cbn.
  destruct (Ascii.eqb c sep); [done|]. by destruct (Matches.split sep s).
Qed.

(** X19: [get_live_matches] gives the empty list when the page has no
    live container; otherwise it gives one record for each pair of
    team texts that has a match container at the same position, and
    no more: surplus pairs or surplus containers are dropped without
    notice.  The i-th record holds the i-th pair, the [stars]
    attribute of the i-th container as it is, and a list of maps that
    is never empty: a container without a [data-maps] attribute gives
    the single map name [None]. *)
Theorem get_live_matches_records (team_texts : list string)
    (containers : list (gmap string string)) :
  Matches.get_live_matches None = [] /\
  let records := Matches.get_live_matches (Some (team_texts, containers)) in
  length records = Nat.min (length team_texts / 2) (length containers) /\
  (forall i x, nth_error records i = Some x ->
     Matches.maps x <> [] /\
     nth_error (Matches.pair_teams team_texts) i = Some (Matches.teams x) /\
     exists line, nth_error containers i = Some line /\
                  Matches.stars x = line !! "stars" /\
                  (line !! "data-maps" = None -> Matches.maps x = ["None"])).
Proof.
  split; [reflexivity|]. intros records. subst records.
  unfold Matches.get_live_matches. cbv zeta. split.
  - rewrite zip_records_length, !length_map.
    rewrite pair_teams_length. lia.
  - intros i x Hx. apply zip_records_lookup in Hx as (Ht & Hm & Hs).
    rewrite nth_error_map in Hm, Hs.
    destruct (nth_error containers i) as [line|]; [|discriminate].
    cbn in Hm, Hs. injection Hm as Hm. injection Hs as Hs.
    split; [rewrite <- Hm; apply split_nonempty|].
    split; [exact Ht|].
    exists line. split; [done|]. split; [done|].
    intros Hnone. rewrite <- Hm, Hnone. reflexivity.
Qed.

(** ** The pool is only ever rotated *)

Lemma pool_holds_select (p : string) (rest : list string) (w : world) :
  USE_PROXY (self w) = true -> pool_holds (p :: rest) w ->
  select_proxy w = (Return (Some p), w).
Proof.
  intros Hu [[Hm Hl]|(path & Hp & Hc & Hl & _)]; unfold select_proxy; rewrite Hu.
  - by apply get_proxy_in_memory with rest.
  - by apply get_proxy_regular_file with path rest.
Qed.

Lemma pool_holds_attempted (l : list string) (url : string)
    (proxy : option string) (delay : Z) (w : world) :
  pool_holds l w -> pool_holds l (attempted url proxy delay w).
Proof. intros H. exact H. Qed.

Lemma fetch_rotation_invariant (rs : list transport) (url : string) (delay : Z)
    (l1 l2 : list string) (w : world) :
  USE_PROXY (self w) = true ->
  pool_holds (l2 ++ l1) w -> l2 ++ l1 <> [] ->
  fst (fetch rs url delay w) = verdict rs /\
  exists l1' l2', l1 ++ l2 = l1' ++ l2' /\
                  pool_holds (l2' ++ l1') (snd (fetch rs url delay w)).
Proof.
  revert delay l1 l2 w. induction rs as [|r rs IH]; intros delay l1 l2 w Hu Hpool Hne.
  - destruct (l2 ++ l1) as [|p rest] eqn:Hl; [done|].
    rewrite fetch_unfold, (pool_holds_select p rest w Hu Hpool). cbn.
    split; [done|]. exists l1, l2. split; [done|]. by rewrite Hl.
  - destruct (retried r) eqn:Hr.
    + cbn [verdict]. rewrite Hr.
      destruct l2 as [|a l2].
      * (* the head of the pool is the head of [l1] *)
        destruct l1 as [|a l1]; [done|]. cbn [app] in Hpool.
        destruct (retried_step_pool r rs url delay a l1 w Hr Hu Hpool)
          as (w1 & -> & Hpool1 & Hu1 & _).
        destruct (IH 0 [a] l1 w1 Hu1 Hpool1) as [Hv (m1 & m2 & Hsplit & Hfin)].
        { by destruct l1. }
        split; [exact Hv|]. exists m1, m2. split; [|exact Hfin].
        rewrite app_nil_r. exact Hsplit.
      * cbn [app] in Hpool.
        destruct (retried_step_pool r rs url delay a (l2 ++ l1) w Hr Hu Hpool)
          as (w1 & -> & Hpool1 & Hu1 & _).
        rewrite <- app_assoc in Hpool1.
        destruct (IH 0 (l1 ++ [a]) l2 w1 Hu1 Hpool1) as [Hv (m1 & m2 & Hsplit & Hfin)].
        { by destruct l2, l1. }
        split; [exact Hv|]. exists m1, m2. split; [|exact Hfin].
        rewrite <- Hsplit. by rewrite <- app_assoc.
    + destruct (l2 ++ l1) as [|p rest] eqn:Hl; [done|].
      rewrite (fetch_settled r rs url delay (Some p));
        [|exact Hr|by apply pool_holds_select with rest].
      cbn [verdict fst snd]. rewrite Hr. split; [done|].
      exists l1, l2. split; [done|]. by rewrite Hl.
Qed.

(** X20: with proxy mode on and a pool that is not empty (in memory,
    or in a regular pool file of distinct endpoints), the outcome of
    [fetch] is that of the first answer that is not retried, and
    however long the chain runs the pool it leaves is the pool it
    found cut in two with the two parts swapped: the cyclic order of
    the proxies never changes. *)
Theorem fetch_rotates_only (rs : list transport) (url : string) (delay : Z)
    (l : list string) (w : world) :
  USE_PROXY (self w) = true ->
  pool_holds l w -> l <> [] ->
  fst (fetch rs url delay w) = verdict rs /\
  exists l1 l2, l = l1 ++ l2 /\ pool_holds (l2 ++ l1) (snd (fetch rs url delay w)).
Proof.
  intros Hu Hpool Hne.
  destruct (fetch_rotation_invariant rs url delay [] l w Hu) as [Hv (l1 & l2 & Hs & Hp)].
  - by rewrite app_nil_r.
  - by rewrite app_nil_r.
  - split; [exact Hv|]. exists l1, l2. split; [exact Hs|exact Hp].
Qed.

(** Five failures on a pool file of three endpoints, then a page. *)
Lemma fetch_rotates_only_witness :
  fst (fetch (repeat (Raises TimeoutError) 5 ++ [Responds 200 (Text plain_page)]) "u" 0
         (mkWorld (init 15 5 true (Some "proxies.txt") None false)
            {[ "proxies.txt" := pool_file ["P1"; "P2"; "P3"] ]} []))
  = verdict (repeat (Raises TimeoutError) 5 ++ [Responds 200 (Text plain_page)]).
Proof.
  refine (proj1 (fetch_rotates_only
                   (repeat (Raises TimeoutError) 5 ++ [Responds 200 (Text plain_page)])
                   "u" 0 ["P1"; "P2"; "P3"]
                   (mkWorld (init 15 5 true (Some "proxies.txt") None false)
                      {[ "proxies.txt" := pool_file ["P1"; "P2"; "P3"] ]} [])
                   _ _ _)).
  - reflexivity.
  - right. exists "proxies.txt". split; [reflexivity|]. split; [reflexivity|].
    split.
    + repeat constructor; discriminate.
    + repeat constructor; rewrite ?list_elem_of_In; cbn; intuition discriminate.
  - discriminate.
Defined.
